(** * bencoderpc: the client and server codecs of a bencode RPC protocol

    A shallow embedding of [client.go] (the [clientCodec] and the
    [serverCodec] that plug into Go's [net/rpc]) and the properties of the
    correlation logic: identifier echo, pending tables, sequence numbers,
    body decoding and locking.

    The bencode library and [net/rpc] are external to the repository.  What
    the codecs need from them is kept abstract:
    - [Decoder.Decode] is the outcome of one call, handed to the codec
      operation that performs it: the dictionary keys found on the wire, or
      an error together with the keys stored before it was detected.
      Decoding into a struct overwrites the fields whose keys are present
      and leaves the others as they are;
    - [Encoder.Encode] is the error it returns, also handed to the
      operation; the value it was given is appended to the codec's log of
      frames;
    - [bencode.Unmarshal] is an argument of the operations that call
      it.
    [Close], [Dial] and the constructors of [rpc.Client] only forward to
    the connection or to [net/rpc] and are left out. *)

From stdpp Require Import gmap strings list fin_maps.
From Stdlib Require Import NArith Lia Sorted.

Set Default Proof Using "Type".
Set Warnings "-clear-no-such-hyp".

Local Open Scope string_scope.
Local Open Scope list_scope.
Local Open Scope N_scope.

(** ** Go data *)

(** [uint64], with the wrap-around of [++]. *)
Definition uint64_modulus : N := 2 ^ 64.

Definition uint64_incr (n : N) : N := (n + 1) mod uint64_modulus.

(** [bencode.RawMessage]: an encoded fragment kept verbatim. *)
Definition RawMessage : Type := list Byte.byte.

(** The errors the codecs return. [errors.New] values are distinct from each
    other and from whatever the bencode library or the connection reports. *)
Inductive error : Type :=
| errMissingParams
| errInvalidSequence
| errExternal (msg : string).

Definition error_text (e : error) : string :=
  match e with
  | errMissingParams => "bencoderpc: request body missing params"
  | errInvalidSequence => "invalid sequence number in response"
  | errExternal msg => msg
  end.

(** What a Go call does: it returns, or it panics at run time. *)
Inductive outcome (A : Type) : Type :=
| Returns (a : A)
| Panics (msg : string).
Arguments Returns {A} a.
Arguments Panics {A} msg.

Definition nil_dereference : string :=
  "runtime error: invalid memory address or nil pointer dereference".

(** One call of [Decoder.Decode] into a struct whose wire form is [W]. *)
Inductive decoded (W : Type) : Type :=
| DecodeOk (w : W)
| DecodeErr (e : error) (stored : W).
Arguments DecodeOk {W} w.
Arguments DecodeErr {W} e stored.

(** [rpc.Request] and [rpc.Response], the headers of [net/rpc]. *)
Record Request : Type := mkRequest {
  rq_ServiceMethod : string;
  rq_Seq : N
}.

Record Response : Type := mkResponse {
  rs_ServiceMethod : string;
  rs_Seq : N;
  rs_Error : string
}.

(** The keys of a request dictionary as found on the wire. *)
Record wireRequest : Type := mkWireRequest {
  wq_i : option RawMessage;
  wq_m : option string;
  wq_p : option RawMessage
}.

(** The keys of a response dictionary as the client decodes them: ["i"] into
    a [uint64]. *)
Record wireResponse : Type := mkWireResponse {
  wr_e : option string;
  wr_i : option N;
  wr_r : option RawMessage
}.

(** ** Sample wire data *)

(** [rpc.Request{}] and [rpc.Response{}], as [net/rpc] passes them. *)
Definition newRequest : Request := {| rq_ServiceMethod := ""; rq_Seq := 0 |}.

Definition newResponse : Response :=
  {| rs_ServiceMethod := ""; rs_Seq := 0; rs_Error := "" |}.

(** [d1:i3:abc1:m9:Arith.Adde]: a string identifier, no params. *)
Definition request_abc : wireRequest :=
  {| wq_i := Some (String.list_byte_of_string "3:abc");
     wq_m := Some "Arith.Add";
     wq_p := None |}.

(** [d1:m9:Arith.Mul1:pd1:Ai2e1:Bi3eee]: no identifier. *)
Definition request_no_id : wireRequest :=
  {| wq_i := None;
     wq_m := Some "Arith.Mul";
     wq_p := Some (String.list_byte_of_string "d1:Ai2e1:Bi3ee") |}.

(** A connection that delivers one request and then invalid bencode. *)
Definition conn_garbage (n : nat) : decoded wireRequest :=
  match n with
  | O => DecodeOk request_abc
  | S _ => DecodeErr (errExternal "bencode: syntax error")
             {| wq_i := None; wq_m := None; wq_p := None |}
  end.

(** Identifiers pending under sequence numbers 1 and 2. *)
Definition pending_1_2 : gmap N (option RawMessage) :=
  <[1 := Some (String.list_byte_of_string "i1e")]>
    (<[2 := Some (String.list_byte_of_string "i2e")]> ∅).

(** A response header for sequence number [n]. *)
Definition response_seq (n : N) : Response :=
  {| rs_ServiceMethod := ""; rs_Seq := n; rs_Error := "" |}.

(** Two calls as [net/rpc] numbers them. *)
Definition call_add : Request :=
  {| rq_ServiceMethod := "Arith.Add"; rq_Seq := 1 |}.

Definition call_mul : Request :=
  {| rq_ServiceMethod := "Arith.Mul"; rq_Seq := 2 |}.

(** A response without error and without result for call [n]. *)
Definition response_to (n : N) : wireResponse :=
  {| wr_e := Some ""; wr_i := Some n; wr_r := None |}.

(** An integer below 256 as one byte: a stand-in for the bencode encoding
    of a [uint64], enough to send small sequence numbers. *)
Definition one_byte_uint (n : N) : RawMessage :=
  match Byte.of_N n with
  | Some b => [b]
  | None => []
  end.

Definition uint_of_one_byte (raw : RawMessage) : option N :=
  match raw with
  | [b] => Some (Byte.to_N b)
  | _ => None
  end.

Section Codec.

(** A Go value behind an [interface{}]; [None] is the nil interface. *)
Context {Value : Type}.

(** [bencode.Unmarshal(data, x)]: fills [x], may fail. *)
Definition unmarshaller : Type := RawMessage -> Value -> Value * option error.

(** ** Client codec *)

Record clientRequest : Type := mkClientRequest {
  cq_Id : N;
  cq_Method : string;
  cq_Params : option Value
}.

Record clientResponse : Type := mkClientResponse {
  cr_Error : string;
  cr_Id : N;
  cr_Result : option RawMessage
}.

Record clientCodec : Type := mkClientCodec {
  cc_enc : list clientRequest;
  cc_req : clientRequest;
  cc_resp : clientResponse;
  cc_pending : gmap N string
}.

Definition NewClientCodec : clientCodec :=
  {| cc_enc := [];
     cc_req := {| cq_Id := 0; cq_Method := ""; cq_Params := None |};
     cc_resp := {| cr_Error := ""; cr_Id := 0; cr_Result := None |};
     cc_pending := ∅ |}.

Definition clientCodec_WriteRequest (eo : option error) (c : clientCodec)
    (r : Request) (params : option Value) : clientCodec * option error :=
  let pending := <[rq_Seq r := rq_ServiceMethod r]> (cc_pending c) in
  let req := {| cq_Id := rq_Seq r;
                cq_Method := rq_ServiceMethod r;
                cq_Params := params |} in
  ({| cc_enc := cc_enc c ++ [req];
      cc_req := req;
      cc_resp := cc_resp c;
      cc_pending := pending |}, eo).

Definition clientResponse_reset (r : clientResponse) : clientResponse :=
  {| cr_Error := ""; cr_Id := 0; cr_Result := None |}.

(** [Decode(&c.resp)]: the keys present overwrite their fields. *)
Definition clientResponse_store (w : wireResponse) (r : clientResponse)
    : clientResponse :=
  {| cr_Error := default (cr_Error r) (wr_e w);
     cr_Id := default (cr_Id r) (wr_i w);
     cr_Result := match wr_r w with
                  | Some raw => Some raw
                  | None => cr_Result r
                  end |}.

Definition clientCodec_with_resp (c : clientCodec) (resp : clientResponse)
    : clientCodec :=
  {| cc_enc := cc_enc c;
     cc_req := cc_req c;
     cc_resp := resp;
     cc_pending := cc_pending c |}.

Definition clientCodec_ReadResponseHeader (d : decoded wireResponse)
    (c : clientCodec) (r : Response) : clientCodec * Response * option error :=
  let resp0 := clientResponse_reset (cc_resp c) in
  match d with
  | DecodeErr e stored =>
      (clientCodec_with_resp c (clientResponse_store stored resp0), r, Some e)
  | DecodeOk w =>
      let resp := clientResponse_store w resp0 in
      let method := default "" (cc_pending c !! cr_Id resp) in
      let pending := delete (cr_Id resp) (cc_pending c) in
      let r1 := {| rs_ServiceMethod := method;
                   rs_Seq := cr_Id resp;
                   rs_Error := if decide (cr_Error resp = "")
                               then rs_Error r
                               else cr_Error resp |} in
      ({| cc_enc := cc_enc c;
          cc_req := cc_req c;
          cc_resp := resp;
          cc_pending := pending |}, r1, None)
  end.

(** [*c.resp.Result] is evaluated before the call of [Unmarshal]: a nil
    [Result] panics. *)
Definition clientCodec_ReadResponseBody (Unmarshal : unmarshaller)
    (c : clientCodec) (x : option Value)
    : outcome (option Value * option error) :=
  match x with
  | None => Returns (None, None)
  | Some v =>
      match cr_Result (cc_resp c) with
      | None => Panics nil_dereference
      | Some raw =>
          let '(v', err) := Unmarshal raw v in Returns (Some v', err)
      end
  end.

(** ** Server codec *)

Record serverRequest : Type := mkServerRequest {
  sq_Id : option RawMessage;
  sq_Method : string;
  sq_Params : option RawMessage
}.

Record serverResponse : Type := mkServerResponse {
  sr_Error : string;
  sr_Id : option RawMessage;
  sr_Result : option Value
}.

(** [pending] maps to [*bencode.RawMessage]: a stored value may be nil. *)
Record serverCodec : Type := mkServerCodec {
  sc_enc : list serverResponse;
  sc_req : serverRequest;
  sc_seq : N;
  sc_pending : gmap N (option RawMessage)
}.

Definition NewServerCodec : serverCodec :=
  {| sc_enc := [];
     sc_req := {| sq_Id := None; sq_Method := ""; sq_Params := None |};
     sc_seq := 0;
     sc_pending := ∅ |}.

Definition serverRequest_reset (r : serverRequest) : serverRequest :=
  {| sq_Id := None; sq_Method := ""; sq_Params := None |}.

(** [Decode(&c.req)]: the keys present overwrite their fields. *)
Definition serverRequest_store (w : wireRequest) (r : serverRequest)
    : serverRequest :=
  {| sq_Id := match wq_i w with Some raw => Some raw | None => sq_Id r end;
     sq_Method := default (sq_Method r) (wq_m w);
     sq_Params := match wq_p w with
                  | Some raw => Some raw
                  | None => sq_Params r
                  end |}.

Definition serverCodec_ReadRequestHeader (d : decoded wireRequest)
    (c : serverCodec) (r : Request) : serverCodec * Request * option error :=
  let req0 := serverRequest_reset (sc_req c) in
  match d with
  | DecodeErr e stored =>
      ({| sc_enc := sc_enc c;
          sc_req := serverRequest_store stored req0;
          sc_seq := sc_seq c;
          sc_pending := sc_pending c |}, r, Some e)
  | DecodeOk w =>
      let req := serverRequest_store w req0 in
      let seq := uint64_incr (sc_seq c) in
      let pending := match sq_Id req with
                     | Some id => <[seq := Some id]> (sc_pending c)
                     | None => sc_pending c
                     end in
      ({| sc_enc := sc_enc c;
          sc_req := {| sq_Id := None;
                       sq_Method := sq_Method req;
                       sq_Params := sq_Params req |};
          sc_seq := seq;
          sc_pending := pending |},
       {| rq_ServiceMethod := sq_Method req; rq_Seq := seq |},
       None)
  end.

Definition serverCodec_ReadRequestBody (Unmarshal : unmarshaller)
    (c : serverCodec) (x : option Value) : option Value * option error :=
  match x with
  | None => (None, None)
  | Some v =>
      match sq_Params (sc_req c) with
      | None => (Some v, Some errMissingParams)
      | Some raw => let '(v', err) := Unmarshal raw v in (Some v', err)
      end
  end.

(** [var zero = bencode.RawMessage([]byte("i0e"))] *)
Definition zero : RawMessage := String.list_byte_of_string "i0e".

Definition serverCodec_WriteResponse (eo : option error) (c : serverCodec)
    (r : Response) (x : option Value) : serverCodec * option error :=
  match sc_pending c !! rs_Seq r with
  | None => (c, Some errInvalidSequence)
  | Some b =>
      let pending := delete (rs_Seq r) (sc_pending c) in
      let id := match b with Some raw => raw | None => zero end in
      let resp := {| sr_Error := if decide (rs_Error r = "")
                                 then ""
                                 else rs_Error r;
                     sr_Id := Some id;
                     sr_Result := x |} in
      ({| sc_enc := sc_enc c ++ [resp];
          sc_req := sc_req c;
          sc_seq := sc_seq c;
          sc_pending := pending |}, eo)
  end.

(** ** Histories of one server codec *)

(** A call on the codec, with what the connection did during it. *)
Inductive serverCall : Type :=
| CallReadRequestHeader (d : decoded wireRequest) (r : Request)
| CallReadRequestBody (x : option Value)
| CallWriteResponse (eo : option error) (r : Response) (x : option Value).

Definition serverCodec_call (c : serverCodec) (op : serverCall)
    : serverCodec :=
  match op with
  | CallReadRequestHeader d r => (serverCodec_ReadRequestHeader d c r).1.1
  | CallReadRequestBody x => c
  | CallWriteResponse eo r x => (serverCodec_WriteResponse eo c r x).1
  end.

Definition serverCodec_calls (c : serverCodec) (ops : list serverCall)
    : serverCodec :=
  foldl serverCodec_call c ops.

(** The number of requests a history reads. *)
Fixpoint header_reads (ops : list serverCall) : N :=
  match ops with
  | [] => 0
  | CallReadRequestHeader (DecodeOk _) _ :: ops' => 1 + header_reads ops'
  | _ :: ops' => header_reads ops'
  end.

(** Whether a history answers sequence number [s]. *)
Fixpoint answers (s : N) (ops : list serverCall) : bool :=
  match ops with
  | [] => false
  | CallWriteResponse _ r _ :: ops' =>
      bool_decide (rs_Seq r = s) || answers s ops'
  | _ :: ops' => answers s ops'
  end.

(** The sequence numbers [ReadRequestHeader] hands to [net/rpc], in order. *)
Fixpoint assigned_seqs (c : serverCodec) (ops : list serverCall) : list N :=
  match ops with
  | [] => []
  | op :: ops' =>
      let rest := assigned_seqs (serverCodec_call c op) ops' in
      match op with
      | CallReadRequestHeader d r =>
          match serverCodec_ReadRequestHeader d c r with
          | (_, r', None) => rq_Seq r' :: rest
          | (_, _, Some _) => rest
          end
      | _ => rest
      end
  end.

(** ** Serving loop *)

Inductive loopState : Type := Reading | Closed.

Section ServingLoop.

(** What the dispatch substrate does with the codec for one request that
    was read (body decoding, the handler, the response): a black box. *)
Variable dispatch : Request -> serverCodec -> serverCodec.

(** Modelled from the spec: [rpc.ServeCodec] belongs to Go's [net/rpc], not
    to this repository.  From section 4.3: in [Reading] the loop performs
    [ReadRequest] repeatedly; a decode failure moves it to [Closed] and it
    returns; a request that was read is dispatched.  [conn n] is the
    outcome of the [n]-th decode on the connection; the loop returns its
    state, the number of decodes it made and the codec. *)
Fixpoint ServeCodec (fuel : nat) (conn : nat -> decoded wireRequest)
    (n : nat) (c : serverCodec) : loopState * nat * serverCodec :=
  match fuel with
  | O => (Reading, n, c)
  | S fuel' =>
      match serverCodec_ReadRequestHeader (conn n) c newRequest with
      | (c', _, Some _) => (Closed, S n, c')
      | (c', r, None) => ServeCodec fuel' conn (S n) (dispatch r c')
      end
  end.

(** [ServeConn] runs the loop on a new codec for the connection. *)
Definition ServeConn (fuel : nat) (conn : nat -> decoded wireRequest)
    : loopState * nat * serverCodec :=
  ServeCodec fuel conn 0%nat NewServerCodec.

End ServingLoop.

Definition is_DecodeOk {W : Type} (d : decoded W) : bool :=
  match d with DecodeOk _ => true | DecodeErr _ _ => false end.

(** ** WriteResponse, step by step

    The statements of [WriteResponse] as the atomic steps of a goroutine, so
    that several calls can be interleaved.  [Encode] writes a frame to the
    connection in the pieces given by [frame_writes], an argument of the
    steps. *)

Inductive writePc : Type :=
| pcLock
| pcLookup
| pcUnlockInvalid
| pcDelete (b : option RawMessage)
| pcUnlock (b : option RawMessage)
| pcEncode (rest : list RawMessage)
| pcDone (err : option error).

Record goroutine : Type := mkGoroutine {
  go_r : Response;
  go_x : option Value;
  go_pc : writePc
}.

Definition goroutine_at (g : goroutine) (pc : writePc) : goroutine :=
  {| go_r := go_r g; go_x := go_x g; go_pc := pc |}.

(** The connection's codec as the goroutines share it: who holds [mutex],
    the pending table, and the writes made on the connection with the
    goroutine that made each. *)
Record shared : Type := mkShared {
  sh_mutex : option nat;
  sh_pending : gmap N (option RawMessage);
  sh_wire : list (nat * RawMessage);
  sh_goroutines : list goroutine
}.

Definition response_for (g : goroutine) (b : option RawMessage)
    : serverResponse :=
  {| sr_Error := if decide (rs_Error (go_r g) = "")
                 then ""
                 else rs_Error (go_r g);
     sr_Id := Some (match b with Some raw => raw | None => zero end);
     sr_Result := go_x g |}.

(** One step of goroutine [tid]; [None] when it cannot move. *)
Definition step (frame_writes : serverResponse -> list RawMessage)
    (tid : nat) (s : shared) : option shared :=
  match sh_goroutines s !! tid with
  | None => None
  | Some g =>
      let move (mutex : option nat) (pending : gmap N (option RawMessage))
               (wire : list (nat * RawMessage)) (pc : writePc) :=
        Some {| sh_mutex := mutex;
                sh_pending := pending;
                sh_wire := wire;
                sh_goroutines :=
                  <[tid := goroutine_at g pc]> (sh_goroutines s) |} in
      match go_pc g with
      | pcLock =>
          match sh_mutex s with
          | None => move (Some tid) (sh_pending s) (sh_wire s) pcLookup
          | Some _ => None
          end
      | pcLookup =>
          match sh_pending s !! rs_Seq (go_r g) with
          | None => move (sh_mutex s) (sh_pending s) (sh_wire s) pcUnlockInvalid
          | Some b => move (sh_mutex s) (sh_pending s) (sh_wire s) (pcDelete b)
          end
      | pcUnlockInvalid =>
          move None (sh_pending s) (sh_wire s)
               (pcDone (Some errInvalidSequence))
      | pcDelete b =>
          move (sh_mutex s) (delete (rs_Seq (go_r g)) (sh_pending s))
               (sh_wire s) (pcUnlock b)
      | pcUnlock b =>
          move None (sh_pending s) (sh_wire s)
               (pcEncode (frame_writes (response_for g b)))
      | pcEncode [] =>
          move (sh_mutex s) (sh_pending s) (sh_wire s) (pcDone None)
      | pcEncode (w :: rest) =>
          move (sh_mutex s) (sh_pending s) (sh_wire s ++ [(tid, w)])
               (pcEncode rest)
      | pcDone _ => None
      end
  end.

(** A schedule names the goroutine to run at each turn; a goroutine that
    cannot move loses its turn. *)
Definition run (frame_writes : serverResponse -> list RawMessage)
    (sched : list nat) (s : shared) : shared :=
  foldl (fun s tid => default s (step frame_writes tid s)) s sched.

(** The handlers have just called [WriteResponse]; nobody holds the lock. *)
Definition handlers (pending : gmap N (option RawMessage))
    (calls : list (Response * option Value)) : shared :=
  {| sh_mutex := None;
     sh_pending := pending;
     sh_wire := [];
     sh_goroutines :=
       (fun rx => {| go_r := rx.1; go_x := rx.2; go_pc := pcLock |})
       <$> calls |}.

(** The statements between [Lock] and [Unlock]. *)
Definition in_locked_region (pc : writePc) : bool :=
  match pc with
  | pcLookup | pcUnlockInvalid | pcDelete _ | pcUnlock _ => true
  | _ => false
  end.

(** The goroutine still has bytes of its frame to write. *)
Definition is_writing (pc : writePc) : bool :=
  match pc with
  | pcEncode (_ :: _) => true
  | _ => false
  end.

(** No goroutine's writes are split by another's. *)
Fixpoint frames_whole (owners : list nat) : bool :=
  match owners with
  | [] => true
  | a :: rest =>
      match rest with
      | [] => true
      | b :: _ =>
          (bool_decide (a = b) || negb (bool_decide (a ∈ rest)))
          && frames_whole rest
      end
  end.

(** No entry of the pending table is a nil pointer. *)
Definition pending_no_nil (c : serverCodec) : Prop :=
  ∀ k, sc_pending c !! k ≠ Some None.

(** The lock is held by a goroutine exactly while that goroutine is
    between [Lock] and [Unlock]. *)
Definition lock_inv (s : shared) : Prop :=
  ∀ tid g, sh_goroutines s !! tid = Some g →
           sh_mutex s = Some tid ↔ in_locked_region (go_pc g) = true.

(** Every write to the connection is made by the holder of the lock. *)
Definition write_under_lock (s : shared) : Prop :=
  ∀ tid g, sh_goroutines s !! tid = Some g →
           is_writing (go_pc g) = true → sh_mutex s = Some tid.

(** Two ways an encoder may put a frame on the connection, for a response
    without error whose result encodes as the empty string: the whole
    dictionary in one write, or the dictionary up to the identifier in one
    write and the remainder in another. *)
Definition frame_in_one_write (resp : serverResponse) : list RawMessage :=
  [String.list_byte_of_string "d1:e0:1:i" ++ default [] (sr_Id resp)
   ++ String.list_byte_of_string "1:r0:e"].

Definition frame_in_two_writes (resp : serverResponse) : list RawMessage :=
  [String.list_byte_of_string "d1:e0:1:i" ++ default [] (sr_Id resp);
   String.list_byte_of_string "1:r0:e"].

(** ** Histories of one client codec *)

(** A call that changes the client codec, with what the connection did
    during it.  [ReadResponseBody] changes nothing in the codec. *)
Inductive clientCall : Type :=
| CallWriteRequest (eo : option error) (r : Request) (params : option Value)
| CallReadResponseHeader (d : decoded wireResponse) (r : Response).

Definition clientCodec_call (c : clientCodec) (op : clientCall)
    : clientCodec :=
  match op with
  | CallWriteRequest eo r params => (clientCodec_WriteRequest eo c r params).1
  | CallReadResponseHeader d r => (clientCodec_ReadResponseHeader d c r).1.1
  end.

Definition clientCodec_calls (c : clientCodec) (ops : list clientCall)
    : clientCodec :=
  foldl clientCodec_call c ops.

(** The id a response is read under: [reset] leaves 0 for a missing key. *)
Definition response_id (w : wireResponse) : N := default 0 (wr_i w).

(** Whether a call writes or resolves sequence number [n]. *)
Definition client_touches (n : N) (op : clientCall) : bool :=
  match op with
  | CallWriteRequest _ r _ => bool_decide (rq_Seq r = n)
  | CallReadResponseHeader (DecodeOk w) _ => bool_decide (response_id w = n)
  | CallReadResponseHeader (DecodeErr _ _) _ => false
  end.

(** The sequence numbers and methods of the requests a history writes. *)
Fixpoint requests_written (ops : list clientCall) : list (N * string) :=
  match ops with
  | [] => []
  | CallWriteRequest _ r _ :: ops' =>
      (rq_Seq r, rq_ServiceMethod r) :: requests_written ops'
  | _ :: ops' => requests_written ops'
  end.

(** The headers of a run of responses, each read into a new [rpc.Response]
    as [net/rpc] does. *)
Fixpoint clientCodec_headers (c : clientCodec) (ws : list wireResponse)
    : list Response :=
  match ws with
  | [] => []
  | w :: ws' =>
      (clientCodec_ReadResponseHeader (DecodeOk w) c newResponse).1.2
      :: clientCodec_headers
           (clientCodec_ReadResponseHeader (DecodeOk w) c newResponse).1.1 ws'
  end.

(** The identifiers of the requests a server history reads. *)
Fixpoint ids_read (ops : list serverCall) : list RawMessage :=
  match ops with
  | [] => []
  | CallReadRequestHeader (DecodeOk w) _ :: ops' =>
      match wq_i w with
      | Some id => id :: ids_read ops'
      | None => ids_read ops'
      end
  | _ :: ops' => ids_read ops'
  end.

Definition is_WriteRequest (op : clientCall) : bool :=
  match op with
  | CallWriteRequest _ _ _ => true
  | CallReadResponseHeader _ _ => false
  end.

(** Reading a run of responses, as calls of a history. *)
Definition response_reads (ws : list wireResponse) : list clientCall :=
  (λ w, CallReadResponseHeader (DecodeOk w) newResponse) <$> ws.

Definition is_ReadRequestHeader (op : serverCall) : bool :=
  match op with
  | CallReadRequestHeader _ _ => true
  | _ => false
  end.

(** Every identifier the codec holds, pending or written, is one of [ids],
    and none is nil. *)
Definition ids_among (ids : list RawMessage) (c : serverCodec) : Prop :=
  (∀ k v, sc_pending c !! k = Some v → ∃ id, v = Some id ∧ id ∈ ids)
  ∧ (∀ resp, resp ∈ sc_enc c → ∃ id, sr_Id resp = Some id ∧ id ∈ ids).

(** ** The two codecs on one connection

    What the struct tags say about a frame: the client's request goes out
    under the keys [i], [m], [p] that the server's request is read from,
    and the server's response under the keys [e], [i], [r] that the
    client's response is read from.  The encoding of a [uint64] is the
    bencode library's: [enc_uint], with [dec_uint] reading it back. *)

Definition delivers_request (enc_uint : N -> RawMessage)
    (q : clientRequest) (w : wireRequest) : Prop :=
  wq_i w = Some (enc_uint (cq_Id q)) ∧ wq_m w = Some (cq_Method q).

Definition delivers_response (dec_uint : RawMessage -> option N)
    (resp : option serverResponse) (w : wireResponse) : Prop :=
  match resp with
  | Some resp =>
      wr_e w = Some (sr_Error resp)
      ∧ wr_i w = match sr_Id resp with
                 | Some raw => dec_uint raw
                 | None => None
                 end
  | None => False
  end.

(** ** WriteRequest, step by step

    The statements of [WriteRequest] as the atomic steps of a goroutine.
    The pending table is written under the lock; the work space [c.req] is
    filled and encoded after the lock is released.  [Encode] takes the
    work space as it is at that moment. *)

Inductive senderPc : Type :=
| sdLock
| sdStore
| sdUnlock
| sdSetId
| sdSetMethod
| sdSetParams
| sdEncode
| sdDone (err : option error).

Record sender : Type := mkSender {
  sd_r : Request;
  sd_params : option Value;
  sd_eo : option error;
  sd_pc : senderPc
}.

Definition sender_at (g : sender) (pc : senderPc) : sender :=
  {| sd_r := sd_r g; sd_params := sd_params g; sd_eo := sd_eo g;
     sd_pc := pc |}.

Record sending : Type := mkSending {
  sg_mutex : option nat;
  sg_pending : gmap N string;
  sg_req : clientRequest;
  sg_wire : list clientRequest;
  sg_senders : list sender
}.

(** One step of sender [tid]; [None] when it cannot move. *)
Definition send_step (tid : nat) (s : sending) : option sending :=
  match sg_senders s !! tid with
  | None => None
  | Some g =>
      let move (mutex : option nat) (pending : gmap N string)
               (req : clientRequest) (wire : list clientRequest)
               (pc : senderPc) :=
        Some {| sg_mutex := mutex;
                sg_pending := pending;
                sg_req := req;
                sg_wire := wire;
                sg_senders := <[tid := sender_at g pc]> (sg_senders s) |} in
      match sd_pc g with
      | sdLock =>
          match sg_mutex s with
          | None =>
              move (Some tid) (sg_pending s) (sg_req s) (sg_wire s) sdStore
          | Some _ => None
          end
      | sdStore =>
          move (sg_mutex s)
               (<[rq_Seq (sd_r g) := rq_ServiceMethod (sd_r g)]> (sg_pending s))
               (sg_req s) (sg_wire s) sdUnlock
      | sdUnlock =>
          move None (sg_pending s) (sg_req s) (sg_wire s) sdSetId
      | sdSetId =>
          move (sg_mutex s) (sg_pending s)
               {| cq_Id := rq_Seq (sd_r g);
                  cq_Method := cq_Method (sg_req s);
                  cq_Params := cq_Params (sg_req s) |}
               (sg_wire s) sdSetMethod
      | sdSetMethod =>
          move (sg_mutex s) (sg_pending s)
               {| cq_Id := cq_Id (sg_req s);
                  cq_Method := rq_ServiceMethod (sd_r g);
                  cq_Params := cq_Params (sg_req s) |}
               (sg_wire s) sdSetParams
      | sdSetParams =>
          move (sg_mutex s) (sg_pending s)
               {| cq_Id := cq_Id (sg_req s);
                  cq_Method := cq_Method (sg_req s);
                  cq_Params := sd_params g |}
               (sg_wire s) sdEncode
      | sdEncode =>
          move (sg_mutex s) (sg_pending s) (sg_req s)
               (sg_wire s ++ [sg_req s]) (sdDone (sd_eo g))
      | sdDone _ => None
      end
  end.

Definition send_run (sched : list nat) (s : sending) : sending :=
  foldl (fun s tid => default s (send_step tid s)) s sched.

(** The callers have just called [WriteRequest] on codec [c]. *)
Definition senders (c : clientCodec)
    (calls : list (Request * option Value * option error)) : sending :=
  {| sg_mutex := None;
     sg_pending := cc_pending c;
     sg_req := cc_req c;
     sg_wire := [];
     sg_senders :=
       (fun t => {| sd_r := t.1.1; sd_params := t.1.2; sd_eo := t.2;
                    sd_pc := sdLock |})
       <$> calls |}.

(** The call a sender is making. *)
Definition sender_call (g : sender) : Request * option Value * option error :=
  (sd_r g, sd_params g, sd_eo g).

(** The statements of [WriteRequest] between [Lock] and [Unlock]. *)
Definition in_send_locked_region (pc : senderPc) : bool :=
  match pc with
  | sdStore | sdUnlock => true
  | _ => false
  end.

(** The lock is held by a sender exactly while it is between [Lock] and
    [Unlock]. *)
Definition send_lock_inv (s : sending) : Prop :=
  ∀ tid g, sg_senders s !! tid = Some g →
           sg_mutex s = Some tid ↔ in_send_locked_region (sd_pc g) = true.

(** How far a sender has come. *)
Definition sender_rank (pc : senderPc) : nat :=
  match pc with
  | sdLock => 0
  | sdStore => 1
  | sdUnlock => 2
  | sdSetId => 3
  | sdSetMethod => 4
  | sdSetParams => 5
  | sdEncode => 6
  | sdDone _ => 7
  end.

(** The entry of every sender that has stored it is in the pending table;
    the identifier in the work space, once one was set, and the identifier
    of every frame are those of senders that have set theirs. *)
Definition sending_inv (s : sending) : Prop :=
  (∀ tid g, sg_senders s !! tid = Some g → (2 ≤ sender_rank (sd_pc g))%nat →
            sg_pending s !! rq_Seq (sd_r g) = Some (rq_ServiceMethod (sd_r g)))
  ∧ ((∃ tid g, sg_senders s !! tid = Some g
               ∧ (4 ≤ sender_rank (sd_pc g))%nat) →
     ∃ tid g, sg_senders s !! tid = Some g
              ∧ (4 ≤ sender_rank (sd_pc g))%nat
              ∧ rq_Seq (sd_r g) = cq_Id (sg_req s))
  ∧ (∀ f, f ∈ sg_wire s →
          ∃ tid g, sg_senders s !! tid = Some g
                   ∧ (4 ≤ sender_rank (sd_pc g))%nat
                   ∧ rq_Seq (sd_r g) = cq_Id f).


(** ** Sample histories *)

(** Both calls are written, the encoder failing on the first. *)
Definition two_requests : list clientCall :=
  [CallWriteRequest (Some (errExternal "broken pipe")) call_add None;
   CallWriteRequest None call_mul None].

(** Three requests are read, the second without identifier, with a failed
    decode and the response to the first in between. *)
Definition three_requests : list serverCall :=
  [CallReadRequestHeader (DecodeOk request_abc) newRequest;
   CallReadRequestHeader (conn_garbage 1) newRequest;
   CallReadRequestHeader (DecodeOk request_no_id) newRequest;
   CallWriteResponse None (response_seq 1) None;
   CallReadRequestHeader (DecodeOk request_abc) newRequest].

(** * Properties *)

(** ** Arithmetic of the sequence counter *)

Lemma uint64_modulus_pos : 0 < uint64_modulus.
Proof. reflexivity. Qed.

Lemma uint64_incr_lt (n : N) : uint64_incr n < uint64_modulus.
Proof. unfold uint64_incr. apply N.mod_lt. discriminate. Qed.

Lemma uint64_incr_small (n : N) :
  n + 1 < uint64_modulus → uint64_incr n = n + 1.
Proof. intros H. unfold uint64_incr. by apply N.mod_small. Qed.

(** At the largest [uint64] the counter wraps to 0. *)
Lemma uint64_incr_wraps : uint64_incr (uint64_modulus - 1) = 0.
Proof. reflexivity. Qed.

Lemma uint64_incr_offset (s k : N) :
  uint64_incr ((s + k) mod uint64_modulus) = (s + (k + 1)) mod uint64_modulus.
Proof.
  unfold uint64_incr.
  rewrite N.Div0.add_mod_idemp_l. f_equal. lia.
Qed.

Lemma uint64_offset_ne (s k : N) :
  s < uint64_modulus → 0 < k → k < uint64_modulus →
  (s + k) mod uint64_modulus ≠ s.
Proof.
  intros Hs Hk0 Hk Heq.
  destruct (decide (s + k < uint64_modulus)) as [Hlt|Hge].
  - rewrite N.mod_small in Heq by done. lia.
  - assert (Hsub : (s + k) mod uint64_modulus = s + k - uint64_modulus).
    { symmetry. apply (N.mod_unique _ _ 1); lia. }
    lia.
Qed.

(** ** One call of the server codec *)

Lemma serverRequest_store_reset (w : wireRequest) (r : serverRequest) :
  serverRequest_store w (serverRequest_reset r)
  = {| sq_Id := wq_i w;
       sq_Method := default "" (wq_m w);
       sq_Params := wq_p w |}.
Proof.
  unfold serverRequest_store, serverRequest_reset; simpl.
  by destruct (wq_i w), (wq_p w).
Qed.

Lemma ReadRequestHeader_ok (w : wireRequest) (c : serverCodec) (r : Request) :
  serverCodec_ReadRequestHeader (DecodeOk w) c r
  = ({| sc_enc := sc_enc c;
        sc_req := {| sq_Id := None;
                     sq_Method := default "" (wq_m w);
                     sq_Params := wq_p w |};
        sc_seq := uint64_incr (sc_seq c);
        sc_pending := match wq_i w with
                      | Some id => <[uint64_incr (sc_seq c) := Some id]> (sc_pending c)
                      | None => sc_pending c
                      end |},
     {| rq_ServiceMethod := default "" (wq_m w);
        rq_Seq := uint64_incr (sc_seq c) |},
     None).
Proof.
  unfold serverCodec_ReadRequestHeader.
  by rewrite serverRequest_store_reset.
Qed.

Lemma ReadRequestHeader_err (e : error) (stored : wireRequest)
    (c : serverCodec) (r : Request) :
  serverCodec_ReadRequestHeader (DecodeErr e stored) c r
  = ({| sc_enc := sc_enc c;
        sc_req := serverRequest_store stored (serverRequest_reset (sc_req c));
        sc_seq := sc_seq c;
        sc_pending := sc_pending c |}, r, Some e).
Proof. reflexivity. Qed.

Lemma WriteResponse_unknown (eo : option error) (c : serverCodec)
    (r : Response) (x : option Value) :
  sc_pending c !! rs_Seq r = None →
  serverCodec_WriteResponse eo c r x = (c, Some errInvalidSequence).
Proof. intros H. unfold serverCodec_WriteResponse. by rewrite H. Qed.

Lemma WriteResponse_known (eo : option error) (c : serverCodec)
    (r : Response) (x : option Value) (b : option RawMessage) :
  sc_pending c !! rs_Seq r = Some b →
  serverCodec_WriteResponse eo c r x
  = ({| sc_enc := sc_enc c
                  ++ [{| sr_Error := rs_Error r;
                         sr_Id := Some (match b with
                                        | Some raw => raw
                                        | None => zero
                                        end);
                         sr_Result := x |}];
        sc_req := sc_req c;
        sc_seq := sc_seq c;
        sc_pending := delete (rs_Seq r) (sc_pending c) |}, eo).
Proof.
  intros H. unfold serverCodec_WriteResponse. rewrite H.
  by destruct (decide (rs_Error r = "")) as [->|].
Qed.

(** What a call other than the response for [s] does to the entry of [s],
    as long as the counter has not come round to [s] again. *)
Lemma serverCodec_call_keeps (op : serverCall) (c : serverCodec)
    (s k : N) (v : option RawMessage) :
  s < uint64_modulus →
  sc_seq c = (s + k) mod uint64_modulus →
  k + header_reads [op] < uint64_modulus →
  answers s [op] = false →
  sc_pending c !! s = Some v →
  sc_seq (serverCodec_call c op)
    = (s + (k + header_reads [op])) mod uint64_modulus
  ∧ sc_pending (serverCodec_call c op) !! s = Some v.
Proof.
  intros Hs Hseq Hk Hans Hv.
  destruct op as [[w|e stored] r|x|eo r x];
    cbn [header_reads answers serverCodec_call] in *.
  - rewrite ReadRequestHeader_ok; simpl.
    rewrite Hseq, uint64_incr_offset. split; [done|].
    destruct (wq_i w) as [id|]; [|done].
    rewrite lookup_insert_ne; [done|].
    apply uint64_offset_ne; lia.
  - by rewrite N.add_0_r.
  - by rewrite N.add_0_r.
  - rewrite N.add_0_r.
    rewrite orb_false_r in Hans. apply bool_decide_eq_false in Hans.
    destruct (sc_pending c !! rs_Seq r) as [b|] eqn:Hb.
    + rewrite (WriteResponse_known _ _ _ _ _ Hb); simpl.
      split; [done|]. by rewrite lookup_delete_ne.
    + by rewrite (WriteResponse_unknown _ _ _ _ Hb).
Qed.

Lemma header_reads_cons (op : serverCall) (ops : list serverCall) :
  header_reads (op :: ops) = header_reads [op] + header_reads ops.
Proof. destruct op as [[?|? ?] ?|?|? ? ?]; simpl; lia. Qed.

Lemma answers_cons (s : N) (op : serverCall) (ops : list serverCall) :
  answers s (op :: ops) = answers s [op] || answers s ops.
Proof.
  destruct op as [[?|? ?] ?|?|? ? ?]; simpl; try done.
  by rewrite orb_false_r.
Qed.

Lemma serverCodec_calls_keep (ops : list serverCall) (c : serverCodec)
    (s k : N) (v : option RawMessage) :
  s < uint64_modulus →
  sc_seq c = (s + k) mod uint64_modulus →
  k + header_reads ops < uint64_modulus →
  answers s ops = false →
  sc_pending c !! s = Some v →
  sc_pending (serverCodec_calls c ops) !! s = Some v.
Proof.
  intros Hs. revert c k.
  induction ops as [|op ops IH]; intros c k Hseq Hk Hans Hv; [done|].
  rewrite header_reads_cons in Hk.
  rewrite answers_cons in Hans. apply orb_false_elim in Hans as [Hop Hops].
  destruct (serverCodec_call_keeps op c s k v) as [Hseq' Hv']; try done; [lia|].
  unfold serverCodec_calls; simpl.
  apply (IH _ (k + header_reads [op])); try done. lia.
Qed.

(** C1. A request that carries an identifier is answered with that
    identifier, byte for byte, whatever its shape: the response handed to
    the encoder by [WriteResponse] for the request's sequence number has
    [Id] equal to the raw bytes decoded from the request's ["i"] key, and
    the result the handler supplied.  Other calls may come in between, as
    long as none of them answers this request and the 64-bit counter does
    not come round to the same number. *)
Theorem serverCodec_echoes_identifier (c c1 : serverCodec)
    (w : wireRequest) (r r1 : Request) (err1 : option error)
    (id : RawMessage) (ops : list serverCall)
    (eo : option error) (r' : Response) (x : option Value) :
  wq_i w = Some id →
  serverCodec_ReadRequestHeader (DecodeOk w) c r = (c1, r1, err1) →
  answers (rq_Seq r1) ops = false →
  header_reads ops < uint64_modulus →
  rs_Seq r' = rq_Seq r1 →
  err1 = None
  ∧ serverCodec_WriteResponse eo (serverCodec_calls c1 ops) r' x
    = ({| sc_enc := sc_enc (serverCodec_calls c1 ops)
                    ++ [{| sr_Error := rs_Error r';
                           sr_Id := Some id;
                           sr_Result := x |}];
          sc_req := sc_req (serverCodec_calls c1 ops);
          sc_seq := sc_seq (serverCodec_calls c1 ops);
          sc_pending := delete (rs_Seq r')
                          (sc_pending (serverCodec_calls c1 ops)) |}, eo).
Proof.
  intros Hid Hread Hans Hreads Hseq.
  rewrite ReadRequestHeader_ok in Hread. rewrite Hid in Hread.
  injection Hread as <- <- <-. split; [done|].
  simpl in *.
  assert (Hs : uint64_incr (sc_seq c) < uint64_modulus)
    by apply uint64_incr_lt.
  apply (WriteResponse_known _ _ _ _ (Some id)). rewrite Hseq.
  apply (serverCodec_calls_keep _ _ _ 0); try done; simpl.
  - rewrite N.add_0_r. symmetry. by apply N.mod_small.
  - by rewrite lookup_insert_eq.
Qed.

(** The guard of [ReadRequestHeader] stores an entry only for a request
    with an identifier, so no entry of the pending table is ever nil. *)
Lemma serverCodec_call_no_nil (c : serverCodec) (op : serverCall) :
  pending_no_nil c → pending_no_nil (serverCodec_call c op).
Proof.
  intros Hc k. destruct op as [[w|e stored] r|x|eo r x];
    cbn [serverCodec_call].
  - rewrite ReadRequestHeader_ok; simpl.
    destruct (wq_i w) as [id|]; [|apply Hc].
    rewrite lookup_insert. case_decide; [done|apply Hc].
  - apply Hc.
  - apply Hc.
  - destruct (sc_pending c !! rs_Seq r) as [b|] eqn:Hb.
    + rewrite (WriteResponse_known _ _ _ _ _ Hb); simpl.
      rewrite lookup_delete. case_decide; [done|apply Hc].
    + rewrite (WriteResponse_unknown _ _ _ _ Hb). apply Hc.
Qed.

Lemma serverCodec_calls_no_nil (ops : list serverCall) :
  pending_no_nil (serverCodec_calls NewServerCodec ops).
Proof.
  assert (H : ∀ c, pending_no_nil c → pending_no_nil (serverCodec_calls c ops)).
  { induction ops as [|op ops IH]; intros c Hc; [done|].
    apply IH. by apply serverCodec_call_no_nil. }
  apply H. intros k. unfold NewServerCodec; simpl. by rewrite lookup_empty.
Qed.

(** C2. On a fresh connection a request without identifier gets sequence
    number 1 and no pending entry; [WriteResponse] for sequence number 1
    then returns the invalid-sequence error and hands nothing to the
    encoder.  No response with the sentinel [i0e] is written. *)
Theorem serverCodec_absent_id_unanswered (m : option string)
    (p : option RawMessage) (r : Request) (eo : option error)
    (e : string) (x : option Value) :
  let w := {| wq_i := None; wq_m := m; wq_p := p |} in
  let c1 := (serverCodec_ReadRequestHeader (DecodeOk w) NewServerCodec r).1.1 in
  let r1 := (serverCodec_ReadRequestHeader (DecodeOk w) NewServerCodec r).1.2 in
  rq_Seq r1 = 1
  ∧ sc_pending c1 = ∅
  ∧ serverCodec_WriteResponse eo c1
      {| rs_ServiceMethod := rq_ServiceMethod r1;
         rs_Seq := rq_Seq r1;
         rs_Error := e |} x
    = (c1, Some errInvalidSequence)
  ∧ sc_enc c1 = [].
Proof.
  intros w c1 r1. subst c1 r1 w.
  rewrite ReadRequestHeader_ok; simpl.
  repeat split.
Qed.

(** C4. [WriteResponse] for a sequence number without pending entry returns
    the invalid-sequence error and leaves the codec as it was, nothing
    handed to the encoder.  Otherwise it hands one response to the encoder
    and deletes the entry of that sequence number and no other; a second
    [WriteResponse] for the same number finds nothing and fails.  Reading a
    request deletes no entry. *)
Theorem serverCodec_WriteResponse_removes_once (eo eo' : option error)
    (c : serverCodec) (r : Response) (x x' : option Value)
    (d : decoded wireRequest) (rq : Request) :
  match sc_pending c !! rs_Seq r with
  | None =>
      serverCodec_WriteResponse eo c r x = (c, Some errInvalidSequence)
  | Some b =>
      let c' := (serverCodec_WriteResponse eo c r x).1 in
      (serverCodec_WriteResponse eo c r x).2 = eo
      ∧ sc_pending c' = delete (rs_Seq r) (sc_pending c)
      ∧ dom (sc_pending c') = dom (sc_pending c) ∖ {[rs_Seq r]}
      ∧ length (sc_enc c') = S (length (sc_enc c))
      ∧ serverCodec_WriteResponse eo' c' r x' = (c', Some errInvalidSequence)
  end
  ∧ dom (sc_pending c)
    ⊆ dom (sc_pending (serverCodec_ReadRequestHeader d c rq).1.1).
Proof.
  split.
  - destruct (sc_pending c !! rs_Seq r) as [b|] eqn:Hb.
    + rewrite (WriteResponse_known _ _ _ _ _ Hb); simpl.
      repeat split.
      * by rewrite dom_delete_L.
      * rewrite length_app; simpl. lia.
      * apply WriteResponse_unknown; simpl. by rewrite lookup_delete_eq.
    + by apply WriteResponse_unknown.
  - destruct d as [w|e stored].
    + rewrite ReadRequestHeader_ok; simpl.
      destruct (wq_i w); [|done]. rewrite dom_insert_L. set_solver.
    + by rewrite ReadRequestHeader_err.
Qed.

(** C6. After a request without ["p"] key was read, [ReadRequestBody] with
    a target returns [errMissingParams] and leaves the target as it was;
    with a nil target it returns no error.  The error is the call's alone:
    the codec is untouched by [ReadRequestBody], so the pending entry of
    the request is still there and [WriteResponse] can report the error
    under the request's identifier. *)
Theorem serverCodec_missing_params (Unmarshal : unmarshaller)
    (c c1 : serverCodec) (w : wireRequest) (r r1 : Request)
    (err1 : option error) (v : Value) (eo : option error) :
  wq_p w = None →
  serverCodec_ReadRequestHeader (DecodeOk w) c r = (c1, r1, err1) →
  serverCodec_ReadRequestBody Unmarshal c1 (Some v)
  = (Some v, Some errMissingParams)
  ∧ serverCodec_ReadRequestBody Unmarshal c1 None = (None, None)
  ∧ match wq_i w with
    | Some id =>
        serverCodec_WriteResponse eo c1
          {| rs_ServiceMethod := rq_ServiceMethod r1;
             rs_Seq := rq_Seq r1;
             rs_Error := error_text errMissingParams |} None
        = ({| sc_enc := sc_enc c1
                        ++ [{| sr_Error := "bencoderpc: request body missing params";
                               sr_Id := Some id;
                               sr_Result := None |}];
              sc_req := sc_req c1;
              sc_seq := sc_seq c1;
              sc_pending := delete (rq_Seq r1) (sc_pending c1) |}, eo)
    | None => True
    end.
Proof.
  intros Hp Hread.
  rewrite ReadRequestHeader_ok in Hread. injection Hread as <- <- <-.
  split; [|split].
  - unfold serverCodec_ReadRequestBody; simpl. by rewrite Hp.
  - done.
  - destruct (wq_i w) as [id|] eqn:Hid; [|done].
    rewrite (WriteResponse_known _ _ _ _ (Some id)); [done|].
    simpl. by rewrite lookup_insert_eq.
Qed.

(** ** The sequence counter *)

Lemma numbering_shift (s : N) (n : nat) :
  (λ i : nat, s + N.of_nat i) <$> seq 1 (S n)
  = (s + 1) :: ((λ i : nat, s + 1 + N.of_nat i) <$> seq 1 n).
Proof.
  cbn [seq fmap list_fmap]. f_equal.
  rewrite <- (fmap_S_seq 1 n), <- list_fmap_compose.
  apply list_fmap_ext. intros _ i _. simpl. lia.
Qed.

Lemma assigned_seqs_from (ops : list serverCall) (c : serverCodec) :
  sc_seq c + header_reads ops < uint64_modulus →
  assigned_seqs c ops
  = (λ i : nat, sc_seq c + N.of_nat i) <$> seq 1 (N.to_nat (header_reads ops)).
Proof.
  revert c. induction ops as [|op ops IH]; intros c Hlt; [done|].
  rewrite header_reads_cons in Hlt.
  destruct op as [[w|e stored] r|x|eo r x];
    cbn [assigned_seqs header_reads serverCodec_call] in *.
  - rewrite ReadRequestHeader_ok. cbn [fst snd rq_Seq].
    assert (Hincr : uint64_incr (sc_seq c) = sc_seq c + 1)
      by (apply uint64_incr_small; lia).
    rewrite IH; cbn [sc_seq]; rewrite Hincr; [|lia].
    replace (N.to_nat (1 + header_reads ops))
      with (S (N.to_nat (header_reads ops))) by lia.
    by rewrite numbering_shift.
  - rewrite ReadRequestHeader_err. cbn [fst]. rewrite IH; [done|simpl; lia].
  - apply IH. lia.
  - assert (Hseq : sc_seq (serverCodec_WriteResponse eo c r x).1 = sc_seq c).
    { unfold serverCodec_WriteResponse.
      by destruct (sc_pending c !! rs_Seq r). }
    rewrite IH; rewrite Hseq; [done|lia].
Qed.

Lemma numbering_sorted (a n : nat) :
  StronglySorted N.lt (N.of_nat <$> seq a n).
Proof.
  revert a. induction n as [|n IH]; intros a; simpl; constructor; [apply IH|].
  apply Forall_forall. intros k Hk.
  apply list_elem_of_fmap in Hk as (i & -> & Hi).
  apply elem_of_seq in Hi. lia.
Qed.

Lemma numbering_NoDup (a n : nat) : NoDup (N.of_nat <$> seq a n).
Proof.
  apply NoDup_fmap_2; [|apply NoDup_seq].
  intros i j. apply Nat2N.inj.
Qed.

Lemma pending_assigned (ops : list serverCall) (c : serverCodec) :
  dom (sc_pending (serverCodec_calls c ops))
  ⊆ dom (sc_pending c) ∪ list_to_set (assigned_seqs c ops).
Proof.
  revert c. induction ops as [|op ops IH]; intros c; [set_solver|].
  unfold serverCodec_calls; simpl foldl.
  etrans; [apply IH|].
  destruct op as [[w|e stored] r|x|eo r x];
    cbn [assigned_seqs serverCodec_call].
  - rewrite ReadRequestHeader_ok. cbn [fst snd rq_Seq sc_pending].
    destruct (wq_i w); [rewrite dom_insert_L|]; set_solver.
  - rewrite ReadRequestHeader_err. cbn [fst snd sc_pending]. set_solver.
  - set_solver.
  - destruct (sc_pending c !! rs_Seq r) as [b|] eqn:Hb.
    + rewrite (WriteResponse_known _ _ _ _ _ Hb). cbn [fst sc_pending].
      rewrite dom_delete_L.
      set (rest := assigned_seqs _ ops). set_solver.
    + rewrite (WriteResponse_unknown _ _ _ _ Hb). cbn [fst]. set_solver.
Qed.

(** C8. On a connection's codec the requests read are numbered 1, 2, 3,
    ... in the order they are read, whether they carry an identifier or
    not, and whatever other calls come in between; a failed decode uses up
    no number.  The numbers are strictly increasing and pairwise distinct,
    and every key of the pending table is one of them.  This is for
    connections that read fewer than 2^64 requests, where the [uint64]
    counter cannot wrap. *)
Theorem serverCodec_seq_increasing (ops : list serverCall) :
  header_reads ops < uint64_modulus →
  assigned_seqs NewServerCodec ops
    = N.of_nat <$> seq 1 (N.to_nat (header_reads ops))
  ∧ StronglySorted N.lt (assigned_seqs NewServerCodec ops)
  ∧ NoDup (assigned_seqs NewServerCodec ops)
  ∧ dom (sc_pending (serverCodec_calls NewServerCodec ops))
    ⊆ list_to_set (assigned_seqs NewServerCodec ops).
Proof.
  intros Hlt.
  assert (Heq : assigned_seqs NewServerCodec ops
                = N.of_nat <$> seq 1 (N.to_nat (header_reads ops))).
  { rewrite assigned_seqs_from by (simpl; lia). apply list_fmap_ext.
    intros _ i _. simpl. lia. }
  split; [done|]. split; [|split].
  - rewrite Heq. apply numbering_sorted.
  - rewrite Heq. apply numbering_NoDup.
  - etrans; [apply pending_assigned|].
    unfold NewServerCodec at 1; simpl. rewrite dom_empty_L. set_solver.
Qed.

(** ** The serving loop *)

Lemma ServeCodec_stops (dispatch : Request → serverCodec → serverCodec)
    (conn conn' : nat → decoded wireRequest) (m : nat) :
  ∀ (k fuel : nat) (c : serverCodec),
  (∀ i, (k ≤ i < k + m)%nat → is_DecodeOk (conn i) = true) →
  is_DecodeOk (conn (k + m)%nat) = false →
  (∀ i, (k ≤ i ≤ k + m)%nat → conn' i = conn i) →
  (m < fuel)%nat →
  ∃ c', ServeCodec dispatch fuel conn k c = (Closed, S (k + m), c')
        ∧ ServeCodec dispatch fuel conn' k c = (Closed, S (k + m), c').
Proof.
  induction m as [|m IH]; intros k fuel c Hok Herr Hsame Hfuel.
  - destruct fuel as [|fuel]; [lia|]. cbn [ServeCodec].
    rewrite Hsame by lia. rewrite Nat.add_0_r in Herr.
    destruct (conn k) as [w|e stored]; [done|].
    rewrite ReadRequestHeader_err. rewrite Nat.add_0_r. eauto.
  - destruct fuel as [|fuel]; [lia|]. cbn [ServeCodec].
    rewrite Hsame by lia.
    specialize (Hok k ltac:(lia)) as Hk.
    destruct (conn k) as [w|e stored]; [|done].
    rewrite ReadRequestHeader_ok.
    replace (S (k + S m)) with (S (S k + m)) by lia.
    apply IH.
    + intros i Hi. apply Hok. lia.
    + by replace (S k + m)%nat with (k + S m)%nat by lia.
    + intros i Hi. apply Hsame. lia.
    + lia.
Qed.

(** C9. A decode failure makes [ReadRequestHeader] return that error at
    once: one decode, the counter, the pending table and the frames
    written all as they were.  The serving loop then stops: when the
    [n]-th decode on the connection is the first to fail, the loop ends in
    [Closed] after exactly [n + 1] decodes, for any fuel above [n], and
    what the connection would deliver afterwards plays no part. *)
Theorem ServeConn_returns_on_decode_failure
    (dispatch : Request → serverCodec → serverCodec)
    (conn : nat → decoded wireRequest) (n fuel : nat) :
  (∀ i, (i < n)%nat → is_DecodeOk (conn i) = true) →
  is_DecodeOk (conn n) = false →
  (n < fuel)%nat →
  (∃ c', ServeConn dispatch fuel conn = (Closed, S n, c')
         ∧ ∀ conn', (∀ i, (i ≤ n)%nat → conn' i = conn i) →
                    ServeConn dispatch fuel conn' = (Closed, S n, c'))
  ∧ ∀ (c : serverCodec) (r : Request),
      ∃ e c1, serverCodec_ReadRequestHeader (conn n) c r = (c1, r, Some e)
              ∧ sc_seq c1 = sc_seq c
              ∧ sc_pending c1 = sc_pending c
              ∧ sc_enc c1 = sc_enc c.
Proof.
  intros Hok Herr Hfuel. split.
  - destruct (ServeCodec_stops dispatch conn conn n 0 fuel NewServerCodec)
      as (c' & Hc' & _); try done.
    { intros i Hi. apply Hok. lia. }
    exists c'. split; [done|]. intros conn' Hsame.
    destruct (ServeCodec_stops dispatch conn conn' n 0 fuel NewServerCodec)
      as (c'' & Hc'' & Hconn'); try done.
    { intros i Hi. apply Hok. lia. }
    { intros i Hi. apply Hsame. lia. }
    unfold ServeConn in *. simpl in *. congruence.
  - intros c r. destruct (conn n) as [w|e stored]; [done|].
    rewrite ReadRequestHeader_err. eauto 10.
Qed.

(** ** The client codec *)

Lemma clientResponse_store_reset (w : wireResponse) (r : clientResponse) :
  clientResponse_store w (clientResponse_reset r)
  = {| cr_Error := default "" (wr_e w);
       cr_Id := default 0 (wr_i w);
       cr_Result := wr_r w |}.
Proof.
  unfold clientResponse_store, clientResponse_reset; simpl.
  by destruct (wr_r w).
Qed.

(** Without the reset a key missing from the response would leave the
    field of the previous response in the buffer. *)
Lemma clientResponse_store_absent (w : wireResponse) (r : clientResponse) :
  wr_e w = None → wr_i w = None → wr_r w = None →
  clientResponse_store w r = r.
Proof.
  intros He Hi Hr. unfold clientResponse_store. rewrite He, Hi, Hr.
  by destruct r.
Qed.

Lemma ReadResponseHeader_ok (w : wireResponse) (c : clientCodec)
    (r : Response) :
  clientCodec_ReadResponseHeader (DecodeOk w) c r
  = ({| cc_enc := cc_enc c;
        cc_req := cc_req c;
        cc_resp := {| cr_Error := default "" (wr_e w);
                      cr_Id := default 0 (wr_i w);
                      cr_Result := wr_r w |};
        cc_pending := delete (default 0 (wr_i w)) (cc_pending c) |},
     {| rs_ServiceMethod := default "" (cc_pending c !! default 0 (wr_i w));
        rs_Seq := default 0 (wr_i w);
        rs_Error := if decide (default "" (wr_e w) = "")
                    then rs_Error r
                    else default "" (wr_e w) |},
     None).
Proof.
  unfold clientCodec_ReadResponseHeader.
  by rewrite clientResponse_store_reset.
Qed.


(** C3. With a nil target [ReadResponseBody] returns no error and does
    nothing.  With a target, after a response without ["r"] key was
    decoded, it does not return an error: it dereferences the nil [Result]
    and panics. *)
Theorem clientCodec_ReadResponseBody_absent_result
    (Unmarshal : unmarshaller) (c : clientCodec)
    (e : option string) (i : option N) (r : Response) (v : Value) :
  let w := {| wr_e := e; wr_i := i; wr_r := None |} in
  let c1 := (clientCodec_ReadResponseHeader (DecodeOk w) c r).1.1 in
  (clientCodec_ReadResponseHeader (DecodeOk w) c r).2 = None
  ∧ clientCodec_ReadResponseBody Unmarshal c1 None = Returns (None, None)
  ∧ clientCodec_ReadResponseBody Unmarshal c1 (Some v)
    = Panics nil_dereference.
Proof.
  intros w c1. subst c1 w. by rewrite ReadResponseHeader_ok.
Qed.


(** C10. [ReadResponseHeader] resets the buffer before it decodes, so what
    it returns depends on the keys of this response only, not on the
    previous one.  Without ["e"] key the error of the header is left as the
    caller passed it.  Without ["i"] key the id is 0: the header has
    sequence number 0 and the method pending under key 0 (empty when there
    is none), that entry is deleted, and no error is returned. *)
Theorem clientCodec_reset_before_decode (c : clientCodec)
    (w : wireResponse) (r : Response) :
  clientCodec_ReadResponseHeader (DecodeOk w) c r
  = ({| cc_enc := cc_enc c;
        cc_req := cc_req c;
        cc_resp := {| cr_Error := default "" (wr_e w);
                      cr_Id := default 0 (wr_i w);
                      cr_Result := wr_r w |};
        cc_pending := delete (default 0 (wr_i w)) (cc_pending c) |},
     {| rs_ServiceMethod := default "" (cc_pending c !! default 0 (wr_i w));
        rs_Seq := default 0 (wr_i w);
        rs_Error := if decide (default "" (wr_e w) = "")
                    then rs_Error r
                    else default "" (wr_e w) |},
     None)
  ∧ match wr_e w with
    | None =>
        rs_Error (clientCodec_ReadResponseHeader (DecodeOk w) c r).1.2
        = rs_Error r
    | Some _ => True
    end
  ∧ match wr_i w with
    | None =>
        rs_Seq (clientCodec_ReadResponseHeader (DecodeOk w) c r).1.2 = 0
        ∧ rs_ServiceMethod (clientCodec_ReadResponseHeader (DecodeOk w) c r).1.2
          = default "" (cc_pending c !! 0)
        ∧ cc_pending (clientCodec_ReadResponseHeader (DecodeOk w) c r).1.1
          = delete 0 (cc_pending c)
        ∧ (clientCodec_ReadResponseHeader (DecodeOk w) c r).2 = None
    | Some _ => True
    end.
Proof.
  rewrite ReadResponseHeader_ok. split; [done|]. split.
  - by destruct (wr_e w).
  - by destruct (wr_i w).
Qed.

(** ** The lock of WriteResponse *)

Section Lock.

Variable frame_writes : serverResponse → list RawMessage.

Local Abbreviation step := (step frame_writes).
Local Abbreviation run := (run frame_writes).

Lemma lock_inv_move (s : shared) (tid : nat) (g : goroutine)
    (mutex : option nat) (pending : gmap N (option RawMessage))
    (wire : list (nat * RawMessage)) (pc : writePc) :
  lock_inv s →
  sh_goroutines s !! tid = Some g →
  (mutex = Some tid ↔ in_locked_region pc = true) →
  (∀ tid', tid' ≠ tid → mutex = Some tid' ↔ sh_mutex s = Some tid') →
  lock_inv {| sh_mutex := mutex;
              sh_pending := pending;
              sh_wire := wire;
              sh_goroutines := <[tid := goroutine_at g pc]> (sh_goroutines s) |}.
Proof.
  intros Hinv Hg Hself Hother tid' g'. cbn [sh_goroutines sh_mutex].
  destruct (decide (tid' = tid)) as [->|Hne].
  - rewrite list_lookup_insert_eq by (by eapply lookup_lt_Some).
    by intros [= <-].
  - rewrite list_lookup_insert_ne by done. intros Hg'.
    rewrite (Hother _ Hne). by apply Hinv.
Qed.

Lemma step_lock_inv (tid : nat) (s s' : shared) :
  lock_inv s → step tid s = Some s' → lock_inv s'.
Proof.
  intros Hinv. unfold step.
  destruct (sh_goroutines s !! tid) as [g|] eqn:Hg; [|done].
  pose proof (Hinv _ _ Hg) as Hself.
  assert (Hothers : in_locked_region (go_pc g) = true →
            ∀ tid', tid' ≠ tid → None = Some tid' ↔ sh_mutex s = Some tid').
  { intros Hin tid' Hne. apply Hself in Hin. rewrite Hin.
    split; [done|]. by intros [= ->]. }
  destruct (go_pc g) as [| | |b|b|[|w rest]|err] eqn:Hpc; simpl in *.
  - destruct (sh_mutex s) as [holder|] eqn:Hm; [done|].
    intros [= <-]. apply lock_inv_move; try done.
    intros tid' Hne. rewrite Hm. split; [|done]. by intros [= ->].
  - destruct (sh_pending s !! rs_Seq (go_r g));
      intros [= <-]; by apply lock_inv_move.
  - intros [= <-]. apply lock_inv_move; try done. by apply Hothers.
  - intros [= <-]. by apply lock_inv_move.
  - intros [= <-]. apply lock_inv_move; try done. by apply Hothers.
  - intros [= <-]. by apply lock_inv_move.
  - intros [= <-]. by apply lock_inv_move.
  - done.
Qed.

Lemma handlers_lock_inv (pending : gmap N (option RawMessage))
    (calls : list (Response * option Value)) :
  lock_inv (handlers pending calls).
Proof.
  intros tid g. unfold handlers; cbn [sh_goroutines sh_mutex].
  rewrite list_lookup_fmap. destruct (calls !! tid); [|done].
  by intros [= <-].
Qed.

Lemma run_lock_inv (sched : list nat) (s : shared) :
  lock_inv s → lock_inv (run sched s).
Proof.
  revert s. induction sched as [|tid sched IH]; intros s Hinv; [done|].
  unfold run; simpl foldl. apply IH.
  destruct (step tid s) as [s'|] eqn:Hstep; [|done].
  by apply (step_lock_inv tid s).
Qed.

Lemma run_cons (tid : nat) (sched : list nat) (s : shared) :
  run (tid :: sched) s = run sched (default s (step tid s)).
Proof. reflexivity. Qed.

(** A goroutine left alone finishes the writes of its frame. *)
Lemma solo_writes (rest : list RawMessage) (s : shared) (g : goroutine)
    (tid : nat) :
  sh_goroutines s !! tid = Some g →
  go_pc g = pcEncode rest →
  run (replicate (S (length rest)) tid) s
  = {| sh_mutex := sh_mutex s;
       sh_pending := sh_pending s;
       sh_wire := sh_wire s ++ ((λ w, (tid, w)) <$> rest);
       sh_goroutines :=
         <[tid := goroutine_at g (pcDone None)]> (sh_goroutines s) |}.
Proof.
  revert s g. induction rest as [|w rest IH]; intros s g Hg Hpc.
  - unfold run; cbn [length replicate foldl].
    unfold step. rewrite Hg, Hpc; simpl.
    by rewrite app_nil_r.
  - change (replicate (S (length (w :: rest))) tid)
      with (tid :: replicate (S (length rest)) tid).
    rewrite run_cons. unfold step at 1.
    rewrite Hg, Hpc; cbn [default from_option id].
    rewrite (IH _ (goroutine_at g (pcEncode rest))); cbn [sh_goroutines].
    + cbn [sh_mutex sh_pending sh_wire]. f_equal.
      * by rewrite <- app_assoc.
      * by rewrite list_insert_insert_eq.
    + apply list_lookup_insert_eq. by eapply lookup_lt_Some.
    + done.
Qed.

(** The steps are those of [serverCodec_WriteResponse]: one goroutine run
    alone, with an encoder that succeeds, leaves the pending table of the
    sequential call, has put on the connection the writes of the response
    the sequential call hands to the encoder, returns the same error, and
    has released the lock. *)
Lemma step_model_agrees (c : serverCodec) (r : Response) (x : option Value) :
  ∃ n g,
    let s := run (replicate n 0%nat) (handlers (sc_pending c) [(r, x)]) in
    sh_mutex s = None
    ∧ sh_pending s = sc_pending (serverCodec_WriteResponse None c r x).1
    ∧ sh_wire s
      = (λ w, (0%nat, w))
        <$> (drop (length (sc_enc c))
                  (sc_enc (serverCodec_WriteResponse None c r x).1)
             ≫= frame_writes)
    ∧ sh_goroutines s = [g]
    ∧ go_pc g = pcDone (serverCodec_WriteResponse None c r x).2.
Proof.
  destruct (sc_pending c !! rs_Seq r) as [b|] eqn:Hb.
  - set (g0 := {| go_r := r; go_x := x; go_pc := pcLock |}).
    exists (4 + S (length (frame_writes (response_for g0 b))))%nat.
    exists (goroutine_at g0 (pcDone None)).
    rewrite (WriteResponse_known _ _ _ _ _ Hb).
    change (replicate (4 + S ?n) 0%nat)
      with (0 :: 0 :: 0 :: 0 :: replicate (S n) 0)%nat.
    unfold handlers; cbn [fmap list_fmap fst snd]. fold g0.
    rewrite run_cons. unfold step at 1; cbn -[run replicate].
    rewrite run_cons. unfold step at 1; cbn -[run replicate].
    rewrite Hb; cbn -[run replicate].
    rewrite run_cons. unfold step at 1; cbn -[run replicate].
    rewrite run_cons. unfold step at 1; cbn -[run replicate].
    erewrite solo_writes; [|reflexivity|reflexivity].
    cbn. rewrite drop_app_length; cbn. rewrite app_nil_r.
    repeat split.
    unfold response_for; cbn.
    by destruct (decide (rs_Error r = "")) as [->|].
  - exists 3%nat, {| go_r := r; go_x := x;
                     go_pc := pcDone (Some errInvalidSequence) |}.
    rewrite (WriteResponse_unknown _ _ _ _ Hb).
    unfold handlers; cbn [fmap list_fmap fst snd replicate].
    rewrite run_cons. unfold step at 1; cbn -[run].
    rewrite run_cons. unfold step at 1; cbn -[run].
    rewrite Hb; cbn -[run].
    rewrite run_cons. unfold step at 1; cbn.
    by rewrite drop_all.
Qed.

(** C7 (as the code has it). Handlers call [WriteResponse] concurrently on
    one codec, scheduled in any way.  The lock is held by a goroutine
    exactly while it is between [Lock] and [Unlock]; so at most one
    goroutine is there, a step that changes the pending table is taken by
    the holder of the lock, and a step that writes to the connection is
    taken by a goroutine that does not hold it. *)
Theorem WriteResponse_lock_covers_table_only
    (pending : gmap N (option RawMessage))
    (calls : list (Response * option Value)) (sched : list nat)
    (tid : nat) (g : goroutine) :
  sh_goroutines (run sched (handlers pending calls)) !! tid = Some g →
  (in_locked_region (go_pc g) = true
   ↔ sh_mutex (run sched (handlers pending calls)) = Some tid)
  ∧ (is_writing (go_pc g) = true
     → sh_mutex (run sched (handlers pending calls)) ≠ Some tid)
  ∧ (∀ tid' g',
       sh_goroutines (run sched (handlers pending calls)) !! tid' = Some g' →
       in_locked_region (go_pc g) = true →
       in_locked_region (go_pc g') = true →
       tid' = tid)
  ∧ (∀ s', step tid (run sched (handlers pending calls)) = Some s' →
       (sh_pending s' ≠ sh_pending (run sched (handlers pending calls))
        → sh_mutex (run sched (handlers pending calls)) = Some tid)
       ∧ (sh_wire s' ≠ sh_wire (run sched (handlers pending calls))
          → is_writing (go_pc g) = true
            ∧ sh_mutex (run sched (handlers pending calls)) ≠ Some tid)).
Proof.
  set (s := run sched (handlers pending calls)).
  assert (Hinv : lock_inv s) by apply run_lock_inv, handlers_lock_inv.
  intros Hg. pose proof (Hinv _ _ Hg) as Hself.
  assert (Hwrite : is_writing (go_pc g) = true → sh_mutex s ≠ Some tid).
  { intros Hw Hm. apply Hself in Hm. by destruct (go_pc g). }
  split; [by symmetry|]. split; [done|]. split.
  - intros tid' g' Hg' Hin Hin'.
    apply Hself in Hin. apply (Hinv _ _ Hg') in Hin'. congruence.
  - intros s'. unfold step. rewrite Hg.
    destruct (go_pc g) as [| | |b|b|[|w rest]|err] eqn:Hpc; simpl.
    + destruct (sh_mutex s); [done|]. by intros [= <-].
    + destruct (sh_pending s !! rs_Seq (go_r g)); by intros [= <-].
    + by intros [= <-].
    + intros [= <-]; simpl. split; [|done]. intros _. by apply Hself.
    + by intros [= <-].
    + by intros [= <-].
    + intros [= <-]; simpl. split; [done|]. intros _. split; [done|].
      by apply Hwrite.
    + done.
Qed.

End Lock.

(** * Further properties of the client codec *)

Lemma clientCodec_call_untouched (op : clientCall) (c : clientCodec) (n : N) :
  client_touches n op = false →
  cc_pending (clientCodec_call c op) !! n = cc_pending c !! n.
Proof.
  destruct op as [eo r params|[w|e stored] r];
    cbn [client_touches clientCodec_call]; intros Hn.
  - apply bool_decide_eq_false in Hn. simpl. by rewrite lookup_insert_ne.
  - apply bool_decide_eq_false in Hn. rewrite ReadResponseHeader_ok; simpl.
    by rewrite lookup_delete_ne.
  - done.
Qed.

Lemma clientCodec_calls_untouched (ops : list clientCall) (c : clientCodec)
    (n : N) :
  existsb (client_touches n) ops = false →
  cc_pending (clientCodec_calls c ops) !! n = cc_pending c !! n.
Proof.
  revert c. induction ops as [|op ops IH]; intros c Hn; [done|].
  cbn [existsb] in Hn. apply orb_false_elim in Hn as [Hop Hops].
  unfold clientCodec_calls; cbn [foldl]. fold (clientCodec_calls (clientCodec_call c op) ops).
  rewrite IH by done. by apply clientCodec_call_untouched.
Qed.

(** X1. A request written with sequence number [n] is resolved by the
    response with id [n]: whatever the encoder returned for the request and
    whatever other requests and responses pass in between, as long as none
    of them uses [n], the header gets the request's method and [n], and
    exactly the entry of [n] leaves the pending table. *)
Theorem clientCodec_resolves_method (c : clientCodec) (eo : option error)
    (r : Request) (params : option Value) (ops : list clientCall)
    (w : wireResponse) (r' : Response) :
  existsb (client_touches (rq_Seq r)) ops = false →
  response_id w = rq_Seq r →
  clientCodec_ReadResponseHeader (DecodeOk w)
    (clientCodec_calls (clientCodec_WriteRequest eo c r params).1 ops) r'
  = ({| cc_enc := cc_enc (clientCodec_calls
                            (clientCodec_WriteRequest eo c r params).1 ops);
        cc_req := cc_req (clientCodec_calls
                            (clientCodec_WriteRequest eo c r params).1 ops);
        cc_resp := {| cr_Error := default "" (wr_e w);
                      cr_Id := rq_Seq r;
                      cr_Result := wr_r w |};
        cc_pending :=
          delete (rq_Seq r)
            (cc_pending (clientCodec_calls
                           (clientCodec_WriteRequest eo c r params).1 ops)) |},
     {| rs_ServiceMethod := rq_ServiceMethod r;
        rs_Seq := rq_Seq r;
        rs_Error := if decide (default "" (wr_e w) = "")
                    then rs_Error r'
                    else default "" (wr_e w) |},
     None).
Proof.
  intros Hops Hid. rewrite ReadResponseHeader_ok.
  unfold response_id in Hid. rewrite Hid.
  rewrite clientCodec_calls_untouched by done.
  simpl. by rewrite lookup_insert_eq.
Qed.

(** X2. A response is resolved once: after the response with id [n] was
    read, a later response with the same id gets the empty method, until a
    request is written with [n] again. *)
Theorem clientCodec_resolves_once (c : clientCodec) (w w2 : wireResponse)
    (r r2 : Response) (ops : list clientCall) :
  existsb (client_touches (response_id w)) ops = false →
  response_id w2 = response_id w →
  rs_ServiceMethod
    (clientCodec_ReadResponseHeader (DecodeOk w2)
       (clientCodec_calls
          (clientCodec_ReadResponseHeader (DecodeOk w) c r).1.1 ops) r2).1.2
  = "".
Proof.
  intros Hops Hid. rewrite (ReadResponseHeader_ok w2).
  cbn [fst snd rs_ServiceMethod].
  fold (response_id w2). rewrite Hid.
  rewrite clientCodec_calls_untouched by done.
  rewrite ReadResponseHeader_ok; simpl.
  fold (response_id w). by rewrite lookup_delete_eq.
Qed.

Lemma clientCodec_calls_pending (ops : list clientCall) (c : clientCodec)
    (k : N) (m : string) :
  cc_pending (clientCodec_calls c ops) !! k = Some m →
  cc_pending c !! k = Some m ∨ (k, m) ∈ requests_written ops.
Proof.
  revert c. induction ops as [|op ops IH]; intros c Hk; [by left|].
  apply IH in Hk as [Hk|Hk].
  - destruct op as [eo r params|[w|e stored] r];
      cbn [clientCodec_call requests_written] in *.
    + simpl in Hk. rewrite lookup_insert in Hk. case_decide as Heq.
      * injection Hk as <-. subst k. right. apply elem_of_cons. by left.
      * by left.
    + rewrite ReadResponseHeader_ok in Hk; simpl in Hk.
      rewrite lookup_delete in Hk. case_decide; [done|by left].
    + by left.
  - right. destruct op as [eo r params|d r]; cbn [requests_written];
      [apply elem_of_cons; by right|done].
Qed.

(** X3. The codec invents no method: from a new codec, a header with a
    method other than the empty one names a request of the history, written
    with that sequence number and that method. *)
Theorem clientCodec_method_provenance (ops : list clientCall)
    (w : wireResponse) (r : Response) :
  rs_ServiceMethod
    (clientCodec_ReadResponseHeader (DecodeOk w)
       (clientCodec_calls NewClientCodec ops) r).1.2 ≠ "" →
  (rs_Seq
     (clientCodec_ReadResponseHeader (DecodeOk w)
        (clientCodec_calls NewClientCodec ops) r).1.2,
   rs_ServiceMethod
     (clientCodec_ReadResponseHeader (DecodeOk w)
        (clientCodec_calls NewClientCodec ops) r).1.2)
  ∈ requests_written ops.
Proof.
  rewrite ReadResponseHeader_ok. cbn [fst snd rs_ServiceMethod rs_Seq].
  destruct (cc_pending (clientCodec_calls NewClientCodec ops)
              !! default 0 (wr_i w)) as [m|] eqn:Hm; [|done].
  intros _. apply clientCodec_calls_pending in Hm as [Hm|Hm]; [|done].
  unfold NewClientCodec in Hm; simpl in Hm. by rewrite lookup_empty in Hm.
Qed.

(** X4. A failed decode leaves no trace in the next header: reading a
    response after a decode that failed, whatever it had stored in the
    buffer, gives the codec, the header and the error that reading it
    without the failure gives. *)
Theorem clientCodec_failed_decode_forgotten (c : clientCodec) (e : error)
    (stored w : wireResponse) (r r2 : Response) :
  (clientCodec_ReadResponseHeader (DecodeErr e stored) c r).2 = Some e
  ∧ clientCodec_ReadResponseHeader (DecodeOk w)
      (clientCodec_ReadResponseHeader (DecodeErr e stored) c r).1.1 r2
    = clientCodec_ReadResponseHeader (DecodeOk w) c r2.
Proof. split; [done|]. by rewrite !ReadResponseHeader_ok. Qed.

Lemma clientCodec_writes_keep_resp (ops : list clientCall) (c : clientCodec) :
  forallb is_WriteRequest ops = true →
  cc_resp (clientCodec_calls c ops) = cc_resp c.
Proof.
  revert c. induction ops as [|op ops IH]; intros c Hw; [done|].
  cbn [forallb] in Hw. apply andb_true_iff in Hw as [Hop Hops].
  unfold clientCodec_calls; cbn [foldl].
  fold (clientCodec_calls (clientCodec_call c op) ops).
  rewrite IH by done. by destruct op.
Qed.

(** X5. The body is that of the last header read, also when requests are
    written between header and body: with a target, [ReadResponseBody]
    unmarshals the bytes of this response's ["r"] key, never those of an
    earlier response, and panics exactly when the key was missing; with a
    nil target it returns no error. *)
Theorem clientCodec_body_of_last_header (Unmarshal : unmarshaller)
    (c : clientCodec) (w : wireResponse) (r : Response)
    (ops : list clientCall) (x : option Value) :
  forallb is_WriteRequest ops = true →
  clientCodec_ReadResponseBody Unmarshal
    (clientCodec_calls
       (clientCodec_ReadResponseHeader (DecodeOk w) c r).1.1 ops) x
  = match x with
    | None => Returns (None, None)
    | Some v =>
        match wr_r w with
        | None => Panics nil_dereference
        | Some raw =>
            Returns (Some (Unmarshal raw v).1, (Unmarshal raw v).2)
        end
    end.
Proof.
  intros Hw. unfold clientCodec_ReadResponseBody.
  rewrite clientCodec_writes_keep_resp by done.
  rewrite ReadResponseHeader_ok; simpl.
  destruct x as [v|]; [|done]. destruct (wr_r w) as [raw|]; [|done].
  by destruct (Unmarshal raw v).
Qed.

Lemma clientCodec_headers_resolved (ws : list wireResponse)
    (c : clientCodec) :
  NoDup (response_id <$> ws) →
  (λ h, (rs_Seq h, rs_ServiceMethod h)) <$> clientCodec_headers c ws
  = (λ w, (response_id w, default "" (cc_pending c !! response_id w))) <$> ws.
Proof.
  revert c. induction ws as [|w ws IH]; intros c Hnd; [done|].
  rewrite fmap_cons in Hnd. apply NoDup_cons in Hnd as [Hw Hnd].
  cbn [clientCodec_headers]. rewrite !fmap_cons, IH by done.
  rewrite ReadResponseHeader_ok.
  cbn [fst snd rs_Seq rs_ServiceMethod cc_pending].
  fold (response_id w). f_equal.
  apply Forall_fmap_ext, Forall_forall. intros w' Hw'.
  rewrite lookup_delete_ne; [done|].
  intros Heq. apply Hw. rewrite Heq. by apply list_elem_of_fmap_2.
Qed.

Lemma writes_untouched (ops : list clientCall) (n : N) :
  forallb is_WriteRequest ops = true →
  n ∉ (requests_written ops).*1 →
  existsb (client_touches n) ops = false.
Proof.
  induction ops as [|op ops IH]; intros Hw Hn; [done|].
  cbn [forallb] in Hw. apply andb_true_iff in Hw as [Hop Hops].
  destruct op as [eo r params|d r]; [|done].
  cbn [requests_written existsb client_touches] in *.
  rewrite fmap_cons in Hn. apply not_elem_of_cons in Hn as [Hne Hn].
  rewrite IH by done. rewrite orb_false_r.
  apply bool_decide_eq_false. simpl in Hne. congruence.
Qed.

Lemma writes_lookup (ops : list clientCall) (c : clientCodec)
    (n : N) (m : string) :
  forallb is_WriteRequest ops = true →
  NoDup (requests_written ops).*1 →
  (n, m) ∈ requests_written ops →
  cc_pending (clientCodec_calls c ops) !! n = Some m.
Proof.
  revert c. induction ops as [|op ops IH]; intros c Hw Hnd Hin.
  { by apply elem_of_nil in Hin. }
  cbn [forallb] in Hw. apply andb_true_iff in Hw as [Hop Hops].
  destruct op as [eo r params|d r]; [|done].
  cbn [requests_written] in *. rewrite fmap_cons in Hnd.
  apply NoDup_cons in Hnd as [Hfresh Hnd].
  unfold clientCodec_calls; cbn [foldl].
  fold (clientCodec_calls
          (clientCodec_call c (CallWriteRequest eo r params)) ops).
  apply elem_of_cons in Hin as [Heq|Hin].
  - injection Heq as -> ->.
    rewrite clientCodec_calls_untouched by (by apply writes_untouched).
    simpl. by rewrite lookup_insert_eq.
  - by apply IH.
Qed.

Lemma response_reads_pending (ws : list wireResponse) (c : clientCodec)
    (k : N) :
  cc_pending (clientCodec_calls c (response_reads ws)) !! k
  = if decide (k ∈ response_id <$> ws) then None else cc_pending c !! k.
Proof.
  revert c. induction ws as [|w ws IH]; intros c.
  { rewrite decide_False; [done|]. intros Hin. by apply elem_of_nil in Hin. }
  unfold response_reads, clientCodec_calls. rewrite fmap_cons. cbn [foldl].
  fold (response_reads ws).
  fold (clientCodec_calls
          (clientCodec_call c (CallReadResponseHeader (DecodeOk w) newResponse))
          (response_reads ws)).
  rewrite IH. cbn [clientCodec_call]. rewrite ReadResponseHeader_ok.
  cbn [fst snd cc_pending]. fold (response_id w). rewrite fmap_cons.
  destruct (decide (k = response_id w)) as [->|Hne].
  - rewrite lookup_delete_eq.
    rewrite (decide_True (P := response_id w ∈ response_id w :: _))
      by (apply elem_of_cons; by left).
    by case_decide.
  - rewrite lookup_delete_ne by done.
    destruct (decide (k ∈ response_id <$> ws)) as [Hin|Hout].
    + by rewrite decide_True by (apply elem_of_cons; by right).
    + rewrite decide_False; [done|].
      intros [?|?]%elem_of_cons; done.
Qed.

(** X6. Responses may come in any order.  After requests with pairwise
    distinct sequence numbers were written, reading one response for each
    of them, in whatever order, gives every header the sequence number of
    its response and the method of the request written under that number;
    afterwards none of these requests is pending and the rest of the
    pending table is as before. *)
Theorem clientCodec_out_of_order (c : clientCodec) (ops : list clientCall)
    (ws : list wireResponse) :
  forallb is_WriteRequest ops = true →
  NoDup (requests_written ops).*1 →
  response_id <$> ws ≡ₚ (requests_written ops).*1 →
  (λ h, (rs_Seq h, rs_ServiceMethod h))
    <$> clientCodec_headers (clientCodec_calls c ops) ws
    ≡ₚ requests_written ops
  ∧ rs_Seq <$> clientCodec_headers (clientCodec_calls c ops) ws
    = response_id <$> ws
  ∧ ∀ k, cc_pending (clientCodec_calls c (ops ++ response_reads ws)) !! k
         = if decide (k ∈ (requests_written ops).*1)
           then None
           else cc_pending c !! k.
Proof.
  intros Hw Hnd Hperm.
  assert (Hids : NoDup (response_id <$> ws)) by by rewrite Hperm.
  pose proof (clientCodec_headers_resolved ws (clientCodec_calls c ops) Hids)
    as Hheaders.
  split; [|split].
  - rewrite Hheaders.
    set (g := λ n : N,
           (n, default "" (cc_pending (clientCodec_calls c ops) !! n))).
    transitivity (g <$> (response_id <$> ws)).
    { by rewrite <- list_fmap_compose. }
    rewrite Hperm, <- list_fmap_compose.
    assert (Hid : g ∘ fst <$> requests_written ops
                  = id <$> requests_written ops).
    { apply Forall_fmap_ext, Forall_forall. intros [n m] Hin; simpl.
      unfold g. by rewrite (writes_lookup ops c n m). }
    by rewrite Hid, list_fmap_id.
  - transitivity (fst <$> ((λ h, (rs_Seq h, rs_ServiceMethod h))
                            <$> clientCodec_headers (clientCodec_calls c ops) ws)).
    { by rewrite <- list_fmap_compose. }
    rewrite Hheaders. by rewrite <- list_fmap_compose.
  - intros k. unfold clientCodec_calls. rewrite foldl_app.
    fold (clientCodec_calls c ops).
    fold (clientCodec_calls (clientCodec_calls c ops) (response_reads ws)).
    rewrite response_reads_pending.
    destruct (decide (k ∈ response_id <$> ws)) as [Hin|Hout].
    + rewrite Hperm in Hin. by rewrite decide_True.
    + rewrite Hperm in Hout. rewrite decide_False by done.
      apply clientCodec_calls_untouched. by apply writes_untouched.
Qed.

(** * Further properties of the server codec *)

(** X7. A failed decode leaves no trace in the next request: reading a
    request after a decode that failed, whatever identifier, method or
    params it had stored in the buffer, gives the codec, the header and the
    error that reading it without the failure gives; the failed decode
    used up no sequence number. *)
Theorem serverCodec_failed_decode_forgotten (c : serverCodec) (e : error)
    (stored w : wireRequest) (r r2 : Request) :
  (serverCodec_ReadRequestHeader (DecodeErr e stored) c r).2 = Some e
  ∧ serverCodec_ReadRequestHeader (DecodeOk w)
      (serverCodec_ReadRequestHeader (DecodeErr e stored) c r).1.1 r2
    = serverCodec_ReadRequestHeader (DecodeOk w) c r2.
Proof. split; [done|]. by rewrite !ReadRequestHeader_ok. Qed.

Lemma serverCodec_calls_keep_req (ops : list serverCall) (c : serverCodec) :
  existsb is_ReadRequestHeader ops = false →
  sc_req (serverCodec_calls c ops) = sc_req c.
Proof.
  revert c. induction ops as [|op ops IH]; intros c Hops; [done|].
  cbn [existsb] in Hops. apply orb_false_elim in Hops as [Hop Hops].
  unfold serverCodec_calls; cbn [foldl].
  fold (serverCodec_calls (serverCodec_call c op) ops).
  rewrite IH by done.
  destruct op as [d r|x|eo r x]; [done|done|].
  cbn [serverCodec_call]. unfold serverCodec_WriteResponse.
  by destruct (sc_pending c !! rs_Seq r).
Qed.

(** X8. The body is that of the last request read, also when responses
    are written between header and body: with a target, [ReadRequestBody]
    unmarshals the bytes of this request's ["p"] key, never those of an
    earlier request, and returns [errMissingParams] when the key was
    missing, the target left as it was. *)
Theorem serverCodec_body_of_last_header (Unmarshal : unmarshaller)
    (c : serverCodec) (w : wireRequest) (r : Request)
    (ops : list serverCall) (x : option Value) :
  existsb is_ReadRequestHeader ops = false →
  serverCodec_ReadRequestBody Unmarshal
    (serverCodec_calls
       (serverCodec_ReadRequestHeader (DecodeOk w) c r).1.1 ops) x
  = match x with
    | None => (None, None)
    | Some v =>
        match wq_p w with
        | None => (Some v, Some errMissingParams)
        | Some raw => (Some (Unmarshal raw v).1, (Unmarshal raw v).2)
        end
    end.
Proof.
  intros Hops. unfold serverCodec_ReadRequestBody.
  rewrite serverCodec_calls_keep_req by done.
  rewrite ReadRequestHeader_ok; simpl.
  destruct x as [v|]; [|done]. destruct (wq_p w) as [raw|]; [|done].
  by destruct (Unmarshal raw v).
Qed.

Lemma ids_read_cons (op : serverCall) (ops : list serverCall) :
  ids_read (op :: ops) = ids_read [op] ++ ids_read ops.
Proof.
  destruct op as [[w|e stored] r|x|eo r x]; cbn [ids_read]; try done.
  by destruct (wq_i w).
Qed.

Lemma serverCodec_call_conserves (op : serverCall) (c : serverCodec) :
  (∀ k, is_Some (sc_pending c !! k) → k ≤ sc_seq c) →
  sc_seq c + header_reads [op] < uint64_modulus →
  (∀ k, is_Some (sc_pending (serverCodec_call c op) !! k)
        → k ≤ sc_seq (serverCodec_call c op))
  ∧ sc_seq (serverCodec_call c op) = sc_seq c + header_reads [op]
  ∧ (length (sc_enc (serverCodec_call c op))
     + size (sc_pending (serverCodec_call c op))
     = length (sc_enc c) + size (sc_pending c) + length (ids_read [op]))%nat.
Proof.
  intros Hkeys Hlt.
  destruct op as [[w|e stored] r|x|eo r x];
    cbn [serverCodec_call header_reads ids_read] in *.
  - rewrite ReadRequestHeader_ok. cbn [fst sc_seq sc_pending sc_enc].
    rewrite uint64_incr_small by lia.
    assert (Hfresh : sc_pending c !! (sc_seq c + 1) = None).
    { destruct (sc_pending c !! (sc_seq c + 1)) eqn:Hk; [|done].
      specialize (Hkeys (sc_seq c + 1)). rewrite Hk in Hkeys.
      specialize (Hkeys ltac:(eauto)). lia. }
    split; [|split; [lia|]].
    + intros k Hk. destruct (wq_i w) as [id|].
      * rewrite lookup_insert in Hk. case_decide; [lia|].
        apply Hkeys in Hk. lia.
      * apply Hkeys in Hk. lia.
    + destruct (wq_i w) as [id|]; simpl.
      * rewrite map_size_insert_None by done. lia.
      * lia.
  - rewrite ReadRequestHeader_err. cbn [fst sc_seq sc_pending sc_enc].
    split; [done|]. split; simpl; lia.
  - split; [done|]. split; simpl; lia.
  - destruct (sc_pending c !! rs_Seq r) as [b|] eqn:Hb.
    + rewrite (WriteResponse_known _ _ _ _ _ Hb).
      cbn [fst sc_seq sc_pending sc_enc].
      split; [|split; [lia|]].
      * intros k Hk. rewrite lookup_delete in Hk.
        case_decide; [by destruct Hk|by apply Hkeys].
      * rewrite length_app, map_size_delete_Some by eauto.
        pose proof (map_size_ne_0_lookup_2 (sc_pending c) (rs_Seq r)
                      ltac:(eauto)).
        simpl. lia.
    + rewrite (WriteResponse_unknown _ _ _ _ Hb). cbn [fst].
      split; [done|]. split; simpl; lia.
Qed.

Lemma serverCodec_calls_conserve (ops : list serverCall) (c : serverCodec) :
  (∀ k, is_Some (sc_pending c !! k) → k ≤ sc_seq c) →
  sc_seq c + header_reads ops < uint64_modulus →
  (length (sc_enc (serverCodec_calls c ops))
   + size (sc_pending (serverCodec_calls c ops))
   = length (sc_enc c) + size (sc_pending c) + length (ids_read ops))%nat.
Proof.
  revert c. induction ops as [|op ops IH]; intros c Hkeys Hlt.
  { simpl. lia. }
  rewrite header_reads_cons in Hlt.
  destruct (serverCodec_call_conserves op c Hkeys) as (Hkeys' & Hseq & Hstep);
    [lia|].
  unfold serverCodec_calls; cbn [foldl].
  fold (serverCodec_calls (serverCodec_call c op) ops).
  rewrite IH by (done || lia).
  rewrite Hstep, (ids_read_cons op ops), length_app. lia.
Qed.

(** X9. Nothing is lost and nothing is answered twice: on a connection
    that has read fewer than 2^64 requests, the responses handed to the
    encoder and the entries still pending together are as many as the
    requests read with an identifier. *)
Theorem serverCodec_conservation (ops : list serverCall) :
  header_reads ops < uint64_modulus →
  (length (sc_enc (serverCodec_calls NewServerCodec ops))
   + size (sc_pending (serverCodec_calls NewServerCodec ops))
   = length (ids_read ops))%nat.
Proof.
  intros Hlt. rewrite serverCodec_calls_conserve.
  - unfold NewServerCodec; simpl. by rewrite map_size_empty.
  - intros k [v Hk]. unfold NewServerCodec in Hk; simpl in Hk.
    by rewrite lookup_empty in Hk.
  - simpl. lia.
Qed.

Lemma ids_among_mono (ids ids' : list RawMessage) (c : serverCodec) :
  ids ⊆ ids' → ids_among ids c → ids_among ids' c.
Proof.
  intros Hsub [Hpending Henc]. split.
  - intros k v Hk. destruct (Hpending k v Hk) as (id & -> & Hid). eauto.
  - intros resp Hresp. destruct (Henc resp Hresp) as (id & Hresp' & Hid). eauto.
Qed.

Lemma serverCodec_call_ids_among (op : serverCall) (c : serverCodec)
    (ids : list RawMessage) :
  ids_among ids c → ids_among (ids ++ ids_read [op]) (serverCodec_call c op).
Proof.
  intros Hc.
  assert (Hc' : ids_among (ids ++ ids_read [op]) c).
  { apply (ids_among_mono ids); [|done]. intros id Hid.
    apply elem_of_app. by left. }
  destruct Hc' as [Hpending Henc].
  destruct op as [[w|e stored] r|x|eo r x];
    cbn [serverCodec_call ids_read] in *.
  - rewrite ReadRequestHeader_ok. cbn [fst].
    split; cbn [sc_pending sc_enc]; [|done].
    destruct (wq_i w) as [id|]; [|done].
    intros k v Hk. rewrite lookup_insert in Hk. case_decide; [|by eauto].
    injection Hk as <-. exists id. split; [done|].
    apply elem_of_app. right. apply elem_of_cons. by left.
  - by rewrite ReadRequestHeader_err.
  - done.
  - destruct (sc_pending c !! rs_Seq r) as [b|] eqn:Hb.
    + rewrite (WriteResponse_known _ _ _ _ _ Hb). cbn [fst].
      split; cbn [sc_pending sc_enc].
      * intros k v Hk. rewrite lookup_delete in Hk.
        case_decide; [done|by eauto].
      * intros resp [Hresp|Hresp%list_elem_of_singleton]%elem_of_app;
          [by eauto|].
        destruct (Hpending _ _ Hb) as (id & -> & Hid).
        exists id. by subst resp.
    + by rewrite (WriteResponse_unknown _ _ _ _ Hb).
Qed.

Lemma serverCodec_calls_ids_among (ops : list serverCall) (c : serverCodec)
    (ids : list RawMessage) :
  ids_among ids c → ids_among (ids ++ ids_read ops) (serverCodec_calls c ops).
Proof.
  revert c ids. induction ops as [|op ops IH]; intros c ids Hc.
  { simpl. by rewrite app_nil_r. }
  rewrite ids_read_cons, app_assoc.
  unfold serverCodec_calls; cbn [foldl].
  fold (serverCodec_calls (serverCodec_call c op) ops).
  by apply IH, serverCodec_call_ids_among.
Qed.

(** X10. The codec invents no identifier: every response a connection's
    codec has handed to the encoder carries an identifier, and it is the
    identifier of a request read on that connection.  So the sentinel
    [i0e] of [WriteResponse] goes out only as the identifier of a request
    that carried these bytes itself. *)
Theorem serverCodec_id_provenance (ops : list serverCall)
    (resp : serverResponse) :
  resp ∈ sc_enc (serverCodec_calls NewServerCodec ops) →
  ∃ id, sr_Id resp = Some id ∧ id ∈ ids_read ops.
Proof.
  intros Hresp.
  destruct (serverCodec_calls_ids_among ops NewServerCodec []) as [_ Henc].
  - split.
    + intros k v Hk. unfold NewServerCodec in Hk; simpl in Hk.
      by rewrite lookup_empty in Hk.
    + intros resp' Hresp'. unfold NewServerCodec in Hresp'; simpl in Hresp'.
      by apply elem_of_nil in Hresp'.
  - by apply Henc.
Qed.

Lemma serverCodec_call_seq (op : serverCall) (c : serverCodec) (s k : N) :
  sc_seq c = (s + k) mod uint64_modulus →
  sc_seq (serverCodec_call c op)
  = (s + (k + header_reads [op])) mod uint64_modulus.
Proof.
  intros Hseq.
  destruct op as [[w|e stored] r|x|eo r x];
    cbn [header_reads serverCodec_call].
  - rewrite ReadRequestHeader_ok; simpl.
    by rewrite Hseq, uint64_incr_offset.
  - by rewrite N.add_0_r.
  - by rewrite N.add_0_r.
  - rewrite N.add_0_r. unfold serverCodec_WriteResponse.
    by destruct (sc_pending c !! rs_Seq r).
Qed.

Lemma serverCodec_calls_answered (ops : list serverCall) (c : serverCodec)
    (s k : N) :
  s < uint64_modulus →
  sc_seq c = (s + k) mod uint64_modulus →
  k + header_reads ops < uint64_modulus →
  sc_pending c !! s = None ∨ answers s ops = true →
  sc_pending (serverCodec_calls c ops) !! s = None.
Proof.
  intros Hs. revert c k.
  induction ops as [|op ops IH]; intros c k Hseq Hk Hcase.
  { by destruct Hcase. }
  rewrite header_reads_cons in Hk.
  unfold serverCodec_calls; cbn [foldl].
  fold (serverCodec_calls (serverCodec_call c op) ops).
  apply (IH _ (k + header_reads [op])); [by apply serverCodec_call_seq|lia|].
  rewrite answers_cons in Hcase.
  destruct (answers s ops) eqn:Hrest; [by right|left].
  rewrite orb_false_r in Hcase.
  destruct op as [[w|e stored] r|x|eo r x];
    cbn [answers header_reads serverCodec_call] in *.
  - destruct Hcase as [Hnone|?]; [|done].
    rewrite ReadRequestHeader_ok; simpl.
    destruct (wq_i w) as [id|]; [|done].
    rewrite lookup_insert_ne; [done|].
    rewrite Hseq, uint64_incr_offset. apply uint64_offset_ne; lia.
  - by destruct Hcase.
  - by destruct Hcase.
  - destruct (sc_pending c !! rs_Seq r) as [b|] eqn:Hb.
    + rewrite (WriteResponse_known _ _ _ _ _ Hb); simpl.
      rewrite lookup_delete. case_decide; [done|].
      destruct Hcase as [Hnone|Hans]; [done|].
      rewrite orb_false_r in Hans. by apply bool_decide_eq_true in Hans.
    + rewrite (WriteResponse_unknown _ _ _ _ Hb); simpl.
      destruct Hcase as [Hnone|Hans]; [done|].
      rewrite orb_false_r in Hans. apply bool_decide_eq_true in Hans.
      by rewrite <- Hans.
Qed.

(** X11. A request is answered at most once: after a request was read,
    once a response for its sequence number has been attempted, every
    later [WriteResponse] for that number returns the invalid-sequence
    error and hands nothing to the encoder, as long as the 64-bit counter
    has not come round to the number again. *)
Theorem serverCodec_answers_once (c : serverCodec) (w : wireRequest)
    (r : Request) (ops : list serverCall) (eo : option error)
    (r' : Response) (x : option Value) :
  answers (rq_Seq (serverCodec_ReadRequestHeader (DecodeOk w) c r).1.2) ops
  = true →
  header_reads ops < uint64_modulus →
  rs_Seq r' = rq_Seq (serverCodec_ReadRequestHeader (DecodeOk w) c r).1.2 →
  serverCodec_WriteResponse eo
    (serverCodec_calls
       (serverCodec_ReadRequestHeader (DecodeOk w) c r).1.1 ops) r' x
  = (serverCodec_calls
       (serverCodec_ReadRequestHeader (DecodeOk w) c r).1.1 ops,
     Some errInvalidSequence).
Proof.
  rewrite ReadRequestHeader_ok. cbn [fst snd rq_Seq].
  intros Hans Hlt Hseq.
  apply WriteResponse_unknown. rewrite Hseq.
  apply (serverCodec_calls_answered _ _ _ 0); simpl.
  - apply uint64_incr_lt.
  - rewrite N.add_0_r. symmetry. apply N.mod_small, uint64_incr_lt.
  - done.
  - by right.
Qed.

(** X12. A response for a sequence number the codec has not handed out
    fails: on a connection that has read [n] requests, fewer than 2^64,
    [WriteResponse] for 0 or for a number above [n] returns the
    invalid-sequence error and leaves the codec as it was. *)
Theorem serverCodec_unassigned_seq_fails (ops : list serverCall)
    (eo : option error) (r : Response) (x : option Value) :
  header_reads ops < uint64_modulus →
  rs_Seq r = 0 ∨ header_reads ops < rs_Seq r →
  serverCodec_WriteResponse eo (serverCodec_calls NewServerCodec ops) r x
  = (serverCodec_calls NewServerCodec ops, Some errInvalidSequence).
Proof.
  intros Hlt Hseq. apply WriteResponse_unknown.
  destruct (sc_pending (serverCodec_calls NewServerCodec ops) !! rs_Seq r)
    as [b|] eqn:Hb; [|done].
  assert (Hdom : rs_Seq r ∈ dom (sc_pending (serverCodec_calls NewServerCodec ops)))
    by (apply elem_of_dom; eauto).
  apply pending_assigned in Hdom.
  unfold NewServerCodec at 1 in Hdom; simpl in Hdom.
  rewrite dom_empty_L in Hdom.
  apply elem_of_union in Hdom as [Hdom|Hdom];
    [by apply not_elem_of_empty in Hdom|].
  rewrite assigned_seqs_from in Hdom by (simpl; lia).
  apply elem_of_list_to_set, list_elem_of_fmap in Hdom as (i & Hi & Hin).
  apply elem_of_seq in Hin. simpl in Hi. lia.
Qed.

Lemma serverCodec_calls_seq (ops : list serverCall) (c : serverCodec)
    (k : N) :
  sc_seq c = k mod uint64_modulus →
  sc_seq (serverCodec_calls c ops)
  = (k + header_reads ops) mod uint64_modulus.
Proof.
  revert c k. induction ops as [|op ops IH]; intros c k Hseq.
  { simpl. by rewrite N.add_0_r. }
  rewrite header_reads_cons, N.add_assoc.
  unfold serverCodec_calls; cbn [foldl].
  fold (serverCodec_calls (serverCodec_call c op) ops).
  apply IH. rewrite (serverCodec_call_seq op c 0 k) by done.
  by rewrite N.add_0_l.
Qed.

(** X16. The counter counts the requests read, in 64 bits: after any
    history on a connection the sequence counter is the number of
    successful header reads modulo 2^64; failed decodes, body reads and
    responses leave it alone. *)
Theorem serverCodec_seq_counts_reads (ops : list serverCall) :
  sc_seq (serverCodec_calls NewServerCodec ops)
  = header_reads ops mod uint64_modulus.
Proof.
  rewrite (serverCodec_calls_seq ops NewServerCodec 0); [|done].
  by rewrite N.add_0_l.
Qed.

(** * The client and the server codec together *)

(** X13. A call makes the round trip.  The client writes a request with
    sequence number [n]; the server reads it, whatever its own state, and
    answers under the sequence number it assigned; the client reads the
    response.  When the connection delivers what was written and the
    bencode library reads back the integer it wrote for [n], the server is
    handed the client's method, and the client's header has that method
    (which no frame of the response carries), [n], and the error text the
    handler gave; both pending tables have let go of the call. *)
Theorem call_round_trip (enc_uint : N → RawMessage)
    (dec_uint : RawMessage → option N)
    (c : clientCodec) (s : serverCodec) (eo eo' : option error)
    (r rq0 : Request) (params x : option Value) (w : wireRequest)
    (e : string) (w' : wireResponse) (rs0 : Response) :
  dec_uint (enc_uint (rq_Seq r)) = Some (rq_Seq r) →
  delivers_request enc_uint
    (cc_req (clientCodec_WriteRequest eo c r params).1) w →
  delivers_response dec_uint
    (last (sc_enc
             (serverCodec_WriteResponse eo'
                (serverCodec_ReadRequestHeader (DecodeOk w) s rq0).1.1
                {| rs_ServiceMethod :=
                     rq_ServiceMethod
                       (serverCodec_ReadRequestHeader (DecodeOk w) s rq0).1.2;
                   rs_Seq :=
                     rq_Seq
                       (serverCodec_ReadRequestHeader (DecodeOk w) s rq0).1.2;
                   rs_Error := e |} x).1)) w' →
  rq_ServiceMethod (serverCodec_ReadRequestHeader (DecodeOk w) s rq0).1.2
  = rq_ServiceMethod r
  ∧ sc_pending
      (serverCodec_WriteResponse eo'
         (serverCodec_ReadRequestHeader (DecodeOk w) s rq0).1.1
         {| rs_ServiceMethod :=
              rq_ServiceMethod
                (serverCodec_ReadRequestHeader (DecodeOk w) s rq0).1.2;
            rs_Seq :=
              rq_Seq (serverCodec_ReadRequestHeader (DecodeOk w) s rq0).1.2;
            rs_Error := e |} x).1
    = delete (uint64_incr (sc_seq s)) (sc_pending s)
  ∧ (clientCodec_ReadResponseHeader (DecodeOk w')
       (clientCodec_WriteRequest eo c r params).1 rs0).1.2
    = {| rs_ServiceMethod := rq_ServiceMethod r;
         rs_Seq := rq_Seq r;
         rs_Error := if decide (e = "") then rs_Error rs0 else e |}
  ∧ cc_pending
      (clientCodec_ReadResponseHeader (DecodeOk w')
         (clientCodec_WriteRequest eo c r params).1 rs0).1.1
    = delete (rq_Seq r) (cc_pending c).
Proof.
  intros Hdec [Hi Hm]. rewrite ReadRequestHeader_ok, Hi, Hm.
  cbn [fst snd rq_ServiceMethod rq_Seq default from_option id].
  rewrite (WriteResponse_known _ _ _ _ (Some (enc_uint (rq_Seq r))))
    by (simpl; by rewrite lookup_insert_eq).
  cbn [fst sc_enc sc_pending rs_Seq rs_Error]. rewrite last_snoc.
  intros [He Hid]. simpl in He, Hid. rewrite Hdec in Hid.
  split; [done|]. split; [by rewrite delete_insert_eq|].
  rewrite ReadResponseHeader_ok, He, Hid; simpl.
  rewrite lookup_insert_eq, delete_insert_eq. done.
Qed.

(** * Concurrent senders *)

Lemma senders_lookup_move (gs : list sender) (tid tid1 : nat)
    (g g1 : sender) (pc : senderPc) :
  gs !! tid = Some g →
  <[tid := sender_at g pc]> gs !! tid1 = Some g1 →
  (tid1 = tid ∧ g1 = sender_at g pc) ∨ (tid1 ≠ tid ∧ gs !! tid1 = Some g1).
Proof.
  intros Hg Hg1. destruct (decide (tid1 = tid)) as [->|Hne].
  - rewrite list_lookup_insert_eq in Hg1 by (by eapply lookup_lt_Some).
    left. by injection Hg1 as <-.
  - rewrite list_lookup_insert_ne in Hg1 by done. by right.
Qed.

Lemma senders_keep_move (gs : list sender) (tid : nat) (g : sender)
    (pc : senderPc) (n : nat) (k : N) :
  gs !! tid = Some g →
  (sender_rank (sd_pc g) ≤ sender_rank pc)%nat →
  (∃ tid0 g0, gs !! tid0 = Some g0
              ∧ (n ≤ sender_rank (sd_pc g0))%nat ∧ rq_Seq (sd_r g0) = k) →
  ∃ tid0 g0, <[tid := sender_at g pc]> gs !! tid0 = Some g0
             ∧ (n ≤ sender_rank (sd_pc g0))%nat ∧ rq_Seq (sd_r g0) = k.
Proof.
  intros Hg Hrank (tid0 & g0 & Hg0 & Hn & Hk).
  destruct (decide (tid0 = tid)) as [->|Hne].
  - exists tid, (sender_at g pc).
    rewrite list_lookup_insert_eq by (by eapply lookup_lt_Some).
    assert (g0 = g) as -> by congruence. simpl. repeat split; [lia|done].
  - exists tid0, g0. by rewrite list_lookup_insert_ne.
Qed.

Lemma senders_seqs_move (gs : list sender) (tid : nat) (g : sender)
    (pc : senderPc) :
  gs !! tid = Some g →
  (λ g, rq_Seq (sd_r g)) <$> <[tid := sender_at g pc]> gs
  = (λ g, rq_Seq (sd_r g)) <$> gs.
Proof.
  intros Hg. rewrite list_fmap_insert. apply list_insert_id.
  by rewrite list_lookup_fmap, Hg.
Qed.

Lemma send_step_inv (tid : nat) (s s' : sending) :
  NoDup ((λ g, rq_Seq (sd_r g)) <$> sg_senders s) →
  sending_inv s →
  send_step tid s = Some s' →
  sending_inv s'
  ∧ (λ g, rq_Seq (sd_r g)) <$> sg_senders s'
    = (λ g, rq_Seq (sd_r g)) <$> sg_senders s.
Proof.
  intros Hnd (Hstored & Hreq & Hwire). unfold send_step.
  destruct (sg_senders s !! tid) as [g|] eqn:Hg; [|done].
  assert (Hother : ∀ tid1 g1, sg_senders s !! tid1 = Some g1 → tid1 ≠ tid →
                     rq_Seq (sd_r g1) ≠ rq_Seq (sd_r g)).
  { intros tid1 g1 Hg1 Hne Heq. apply Hne.
    apply (NoDup_lookup _ _ _ (rq_Seq (sd_r g)) Hnd);
      rewrite list_lookup_fmap; [by rewrite Hg1; simpl; f_equal|by rewrite Hg]. }
  assert (Hsome : ∀ n, (n ≤ sender_rank (sd_pc g))%nat →
                    ∃ tid0 g0, sg_senders s !! tid0 = Some g0
                               ∧ (n ≤ sender_rank (sd_pc g0))%nat) by eauto.
  pose proof (senders_lookup_move (sg_senders s) tid) as Hlook.
  pose proof (senders_keep_move (sg_senders s) tid g) as Hkeep.
  pose proof (senders_seqs_move (sg_senders s) tid g) as Hseqs.
  destruct (sd_pc g) eqn:Hpc; simpl in Hsome.
  - destruct (sg_mutex s); [done|]. intros [= <-]. split; [|by apply Hseqs].
    split; [|split]; cbn [sg_pending sg_req sg_wire sg_senders].
    + intros tid1 g1 Hg1 Hr.
      destruct (Hlook _ _ _ _ Hg Hg1) as [[-> ->]|[Hne Hold]];
        [simpl in Hr; lia|by apply (Hstored tid1)].
    + intros (tid1 & g1 & Hg1 & Hr).
      destruct (Hlook _ _ _ _ Hg Hg1) as [[-> ->]|[Hne Hold]];
        [simpl in Hr; lia|].
      apply Hkeep; [done|simpl; lia|]. apply Hreq. eauto.
    + intros f Hf. apply Hkeep; [done|simpl; lia|]. by apply Hwire.
  - intros [= <-]. split; [|by apply Hseqs].
    split; [|split]; cbn [sg_pending sg_req sg_wire sg_senders].
    + intros tid1 g1 Hg1 Hr.
      destruct (Hlook _ _ _ _ Hg Hg1) as [[-> ->]|[Hne Hold]]; simpl.
      * by rewrite lookup_insert_eq.
      * rewrite lookup_insert_ne by (symmetry; by apply (Hother tid1)).
        by apply (Hstored tid1).
    + intros (tid1 & g1 & Hg1 & Hr).
      destruct (Hlook _ _ _ _ Hg Hg1) as [[-> ->]|[Hne Hold]];
        [simpl in Hr; lia|].
      apply Hkeep; [done|simpl; lia|]. apply Hreq. eauto.
    + intros f Hf. apply Hkeep; [done|simpl; lia|]. by apply Hwire.
  - intros [= <-]. split; [|by apply Hseqs].
    split; [|split]; cbn [sg_pending sg_req sg_wire sg_senders].
    + intros tid1 g1 Hg1 Hr.
      destruct (Hlook _ _ _ _ Hg Hg1) as [[-> ->]|[Hne Hold]]; simpl.
      * apply (Hstored tid); [done|]. rewrite Hpc; simpl; lia.
      * by apply (Hstored tid1).
    + intros (tid1 & g1 & Hg1 & Hr).
      destruct (Hlook _ _ _ _ Hg Hg1) as [[-> ->]|[Hne Hold]];
        [simpl in Hr; lia|].
      apply Hkeep; [done|simpl; lia|]. apply Hreq. eauto.
    + intros f Hf. apply Hkeep; [done|simpl; lia|]. by apply Hwire.
  - intros [= <-]. split; [|by apply Hseqs].
    split; [|split]; cbn [sg_pending sg_req sg_wire sg_senders].
    + intros tid1 g1 Hg1 Hr.
      destruct (Hlook _ _ _ _ Hg Hg1) as [[-> ->]|[Hne Hold]]; simpl.
      * apply (Hstored tid); [done|]. rewrite Hpc; simpl; lia.
      * by apply (Hstored tid1).
    + intros _. exists tid, (sender_at g sdSetMethod).
      rewrite list_lookup_insert_eq by (by eapply lookup_lt_Some).
      simpl. repeat split; lia.
    + intros f Hf. apply Hkeep; [done|simpl; lia|]. by apply Hwire.
  - intros [= <-]. split; [|by apply Hseqs].
    split; [|split]; cbn [sg_pending sg_req sg_wire sg_senders cq_Id].
    + intros tid1 g1 Hg1 Hr.
      destruct (Hlook _ _ _ _ Hg Hg1) as [[-> ->]|[Hne Hold]]; simpl.
      * apply (Hstored tid); [done|]. rewrite Hpc; simpl; lia.
      * by apply (Hstored tid1).
    + intros _. apply Hkeep; [done|simpl; lia|]. apply Hreq, Hsome. lia.
    + intros f Hf. apply Hkeep; [done|simpl; lia|]. by apply Hwire.
  - intros [= <-]. split; [|by apply Hseqs].
    split; [|split]; cbn [sg_pending sg_req sg_wire sg_senders cq_Id].
    + intros tid1 g1 Hg1 Hr.
      destruct (Hlook _ _ _ _ Hg Hg1) as [[-> ->]|[Hne Hold]]; simpl.
      * apply (Hstored tid); [done|]. rewrite Hpc; simpl; lia.
      * by apply (Hstored tid1).
    + intros _. apply Hkeep; [done|simpl; lia|]. apply Hreq, Hsome. lia.
    + intros f Hf. apply Hkeep; [done|simpl; lia|]. by apply Hwire.
  - intros [= <-]. split; [|by apply Hseqs].
    split; [|split]; cbn [sg_pending sg_req sg_wire sg_senders cq_Id].
    + intros tid1 g1 Hg1 Hr.
      destruct (Hlook _ _ _ _ Hg Hg1) as [[-> ->]|[Hne Hold]]; simpl.
      * apply (Hstored tid); [done|]. rewrite Hpc; simpl; lia.
      * by apply (Hstored tid1).
    + intros _. apply Hkeep; [done|simpl; lia|]. apply Hreq, Hsome. lia.
    + intros f [Hf|Hf%list_elem_of_singleton]%elem_of_app;
        (apply Hkeep; [done|simpl; lia|]).
      * by apply Hwire.
      * subst f. apply Hreq, Hsome. lia.
  - done.
Qed.

Lemma send_run_inv (sched : list nat) (s : sending) :
  NoDup ((λ g, rq_Seq (sd_r g)) <$> sg_senders s) →
  sending_inv s →
  sending_inv (send_run sched s)
  ∧ (λ g, rq_Seq (sd_r g)) <$> sg_senders (send_run sched s)
    = (λ g, rq_Seq (sd_r g)) <$> sg_senders s.
Proof.
  revert s. induction sched as [|tid sched IH]; intros s Hnd Hinv; [done|].
  unfold send_run; cbn [foldl].
  fold (send_run sched (default s (send_step tid s))).
  destruct (send_step tid s) as [s'|] eqn:Hstep; cbn [default from_option id].
  - destruct (send_step_inv tid s s' Hnd Hinv Hstep) as [Hinv' Hseqs].
    destruct (IH s') as [Hfinal Hseqs']; [by rewrite Hseqs|done|].
    split; [done|]. by rewrite Hseqs'.
  - by apply IH.
Qed.

Lemma send_step_senders (tid : nat) (s s' : sending) :
  send_step tid s = Some s' →
  ∃ g pc, sg_senders s !! tid = Some g
          ∧ sg_senders s' = <[tid := sender_at g pc]> (sg_senders s).
Proof.
  unfold send_step.
  destruct (sg_senders s !! tid) as [g|] eqn:Hg; [|done].
  destruct (sd_pc g); try destruct (sg_mutex s); try done;
    intros [= <-]; eauto.
Qed.

Lemma send_run_calls (sched : list nat) (s : sending) :
  sender_call <$> sg_senders (send_run sched s)
  = sender_call <$> sg_senders s.
Proof.
  revert s. induction sched as [|tid sched IH]; intros s; [done|].
  unfold send_run; cbn [foldl].
  fold (send_run sched (default s (send_step tid s))).
  rewrite IH. destruct (send_step tid s) as [s'|] eqn:Hstep; [|done].
  cbn [default from_option id].
  apply send_step_senders in Hstep as (g & pc & Hg & ->).
  rewrite list_fmap_insert. apply list_insert_id.
  by rewrite list_lookup_fmap, Hg.
Qed.

(** The steps are those of [clientCodec_WriteRequest]: one sender run
    alone leaves the pending table and the work space of the sequential
    call, has handed that work space to the encoder, returns the
    encoder's error and has released the lock. *)
Lemma send_model_agrees (c : clientCodec) (r : Request)
    (params : option Value) (eo : option error) :
  send_run [0; 0; 0; 0; 0; 0; 0]%nat (senders c [(r, params, eo)])
  = {| sg_mutex := None;
       sg_pending := cc_pending (clientCodec_WriteRequest eo c r params).1;
       sg_req := cc_req (clientCodec_WriteRequest eo c r params).1;
       sg_wire := [cc_req (clientCodec_WriteRequest eo c r params).1];
       sg_senders :=
         [{| sd_r := r; sd_params := params; sd_eo := eo;
             sd_pc := sdDone (clientCodec_WriteRequest eo c r params).2 |}] |}.
Proof. reflexivity. Qed.

(** X14. The entry is in the table before the frame is on the connection.
    Callers with pairwise distinct sequence numbers run [WriteRequest]
    concurrently, scheduled in any way, also racing on the work space:
    every request that has been handed to the encoder carries the sequence
    number of one of the calls, and the pending table maps that number to
    the method of that call.  A response, which can only follow the
    request, finds the method. *)
Theorem WriteRequest_entry_before_frame (c : clientCodec)
    (calls : list (Request * option Value * option error))
    (sched : list nat) (f : clientRequest) :
  NoDup ((λ t, rq_Seq t.1.1) <$> calls) →
  f ∈ sg_wire (send_run sched (senders c calls)) →
  ∃ t, t ∈ calls
       ∧ rq_Seq t.1.1 = cq_Id f
       ∧ sg_pending (send_run sched (senders c calls)) !! cq_Id f
         = Some (rq_ServiceMethod t.1.1).
Proof.
  intros Hnd Hf.
  assert (Hcalls : sender_call <$> sg_senders (senders c calls) = calls).
  { unfold senders; cbn [sg_senders]. rewrite <- list_fmap_compose.
    rewrite <- (list_fmap_id calls) at 2.
    apply list_fmap_ext. by intros i [[r params] eo] _. }
  assert (Hseqs : (λ g, rq_Seq (sd_r g)) <$> sg_senders (senders c calls)
                  = (λ t, rq_Seq t.1.1) <$> calls).
  { rewrite <- Hcalls at 2. by rewrite <- list_fmap_compose. }
  destruct (send_run_inv sched (senders c calls)) as [(Hstored & _ & Hwire) _].
  { by rewrite Hseqs. }
  { split; [|split].
    - intros tid g Hg Hr. unfold senders in Hg; cbn [sg_senders] in Hg.
      apply list_lookup_fmap_Some in Hg as (t & -> & _). simpl in Hr. lia.
    - intros (tid & g & Hg & Hr). unfold senders in Hg; cbn [sg_senders] in Hg.
      apply list_lookup_fmap_Some in Hg as (t & -> & _). simpl in Hr. lia.
    - intros f' Hf'. by apply elem_of_nil in Hf'. }
  destruct (Hwire f Hf) as (tid & g & Hg & Hr & Hid).
  exists (sender_call g). split; [|split].
  - rewrite <- Hcalls, <- (send_run_calls sched).
    apply list_elem_of_fmap_2. by eapply list_elem_of_lookup_2.
  - done.
  - rewrite <- Hid. apply (Hstored tid); [done|lia].
Qed.

(** Racing senders are not kept apart: the first fills in its method, the
    second its sequence number, and the first encodes the mixture. *)
Lemma racing_senders_mix_fields :
  sg_wire
    (send_run [0; 0; 0; 0; 0; 1; 1; 1; 1; 0; 0]%nat
       (senders NewClientCodec
          [(call_add, None, None); (call_mul, None, None)]))
  = [{| cq_Id := 2; cq_Method := "Arith.Add"; cq_Params := None |}].
Proof. vm_compute. reflexivity. Qed.

Lemma send_lock_inv_move (s : sending) (tid : nat) (g : sender)
    (mutex : option nat) (pending : gmap N string) (req : clientRequest)
    (wire : list clientRequest) (pc : senderPc) :
  send_lock_inv s →
  sg_senders s !! tid = Some g →
  (mutex = Some tid ↔ in_send_locked_region pc = true) →
  (∀ tid', tid' ≠ tid → mutex = Some tid' ↔ sg_mutex s = Some tid') →
  send_lock_inv {| sg_mutex := mutex;
                   sg_pending := pending;
                   sg_req := req;
                   sg_wire := wire;
                   sg_senders := <[tid := sender_at g pc]> (sg_senders s) |}.
Proof.
  intros Hinv Hg Hself Hother tid' g'. cbn [sg_senders sg_mutex].
  destruct (decide (tid' = tid)) as [->|Hne].
  - rewrite list_lookup_insert_eq by (by eapply lookup_lt_Some).
    by intros [= <-].
  - rewrite list_lookup_insert_ne by done. intros Hg'.
    rewrite (Hother _ Hne). by apply Hinv.
Qed.

Lemma send_step_lock_inv (tid : nat) (s s' : sending) :
  send_lock_inv s → send_step tid s = Some s' → send_lock_inv s'.
Proof.
  intros Hinv. unfold send_step.
  destruct (sg_senders s !! tid) as [g|] eqn:Hg; [|done].
  pose proof (Hinv _ _ Hg) as Hself.
  destruct (sd_pc g) eqn:Hpc; simpl in *.
  - destruct (sg_mutex s) as [holder|] eqn:Hm; [done|].
    intros [= <-]. apply send_lock_inv_move; try done.
    intros tid' Hne. rewrite Hm. split; [|done]. by intros [= ->].
  - intros [= <-]. by apply send_lock_inv_move.
  - intros [= <-]. apply send_lock_inv_move; try done.
    intros tid' Hne. destruct Hself as [_ Hheld]. rewrite Hheld by done.
    split; [done|]. by intros [= ->].
  - intros [= <-]. by apply send_lock_inv_move.
  - intros [= <-]. by apply send_lock_inv_move.
  - intros [= <-]. by apply send_lock_inv_move.
  - intros [= <-]. by apply send_lock_inv_move.
  - done.
Qed.

Lemma send_run_lock_inv (sched : list nat) (s : sending) :
  send_lock_inv s → send_lock_inv (send_run sched s).
Proof.
  revert s. induction sched as [|tid sched IH]; intros s Hinv; [done|].
  unfold send_run; cbn [foldl]. apply IH.
  destruct (send_step tid s) as [s'|] eqn:Hstep; [|done].
  by apply (send_step_lock_inv tid s).
Qed.

(** X15. [WriteRequest] changes the pending table under the lock only.
    With callers scheduled in any way, a sender holds the lock exactly
    while it is between [Lock] and [Unlock], at most one sender is there,
    and a step that changes the pending table is taken by the holder of
    the lock.  Filling the work space and encoding happen without it. *)
Theorem WriteRequest_stores_under_lock (c : clientCodec)
    (calls : list (Request * option Value * option error))
    (sched : list nat) (tid : nat) (g : sender) :
  sg_senders (send_run sched (senders c calls)) !! tid = Some g →
  (in_send_locked_region (sd_pc g) = true
   ↔ sg_mutex (send_run sched (senders c calls)) = Some tid)
  ∧ (∀ tid' g',
       sg_senders (send_run sched (senders c calls)) !! tid' = Some g' →
       in_send_locked_region (sd_pc g) = true →
       in_send_locked_region (sd_pc g') = true →
       tid' = tid)
  ∧ (∀ s', send_step tid (send_run sched (senders c calls)) = Some s' →
       (sg_pending s' ≠ sg_pending (send_run sched (senders c calls))
        → sg_mutex (send_run sched (senders c calls)) = Some tid)
       ∧ (sg_wire s' ≠ sg_wire (send_run sched (senders c calls))
          → sg_mutex (send_run sched (senders c calls)) ≠ Some tid)).
Proof.
  set (s := send_run sched (senders c calls)).
  assert (Hinv : send_lock_inv s).
  { apply send_run_lock_inv. intros tid0 g0 Hg0.
    unfold senders in *; cbn [sg_senders sg_mutex] in *.
    apply list_lookup_fmap_Some in Hg0 as (t & -> & _). done. }
  intros Hg. pose proof (Hinv _ _ Hg) as Hself.
  split; [by symmetry|]. split.
  - intros tid' g' Hg' Hin Hin'.
    apply Hself in Hin. apply (Hinv _ _ Hg') in Hin'. congruence.
  - intros s'. unfold send_step. rewrite Hg.
    destruct (sd_pc g) eqn:Hpc; simpl.
    + destruct (sg_mutex s); [done|]. by intros [= <-].
    + intros [= <-]; simpl. split; [|done]. intros _. by apply Hself.
    + by intros [= <-].
    + by intros [= <-].
    + by intros [= <-].
    + by intros [= <-].
    + intros [= <-]; simpl. split; [done|]. intros _ Hm.
      by apply Hself in Hm.
    + done.
Qed.

End Codec.

(** * The theorems at concrete inputs *)

(** The request [request_abc] is read on a fresh connection; a second
    request is read and a response for an unknown sequence number is
    attempted before the first is answered. *)
Lemma serverCodec_echoes_identifier_witness :
  serverCodec_ReadRequestHeader (Value := N) (DecodeOk request_abc)
    NewServerCodec newRequest
  = ({| sc_enc := [];
        sc_req := {| sq_Id := None; sq_Method := "Arith.Add"; sq_Params := None |};
        sc_seq := 1;
        sc_pending := <[1 := Some (String.list_byte_of_string "3:abc")]> ∅ |},
     {| rq_ServiceMethod := "Arith.Add"; rq_Seq := 1 |}, None)
  ∧ sc_enc
      (serverCodec_WriteResponse None
         (serverCodec_calls
            (serverCodec_ReadRequestHeader (Value := N) (DecodeOk request_abc)
               NewServerCodec newRequest).1.1
            [CallReadRequestHeader (DecodeOk request_no_id) newRequest;
             CallWriteResponse None (response_seq 9) None])
         (response_seq 1) (Some 5)).1
    = [{| sr_Error := "";
          sr_Id := Some (String.list_byte_of_string "3:abc");
          sr_Result := Some 5 |}].
Proof.
  split; [reflexivity|].
  rewrite (proj2 (serverCodec_echoes_identifier (Value := N) NewServerCodec
                    (serverCodec_ReadRequestHeader (DecodeOk request_abc)
                       NewServerCodec newRequest).1.1
                    request_abc newRequest
                    {| rq_ServiceMethod := "Arith.Add"; rq_Seq := 1 |} None
                    (String.list_byte_of_string "3:abc")
                    [CallReadRequestHeader (DecodeOk request_no_id) newRequest;
                     CallWriteResponse None (response_seq 9) None]
                    None (response_seq 1) (Some 5)
                    eq_refl eq_refl eq_refl eq_refl eq_refl)).
  reflexivity.
Defined.

Lemma serverCodec_missing_params_witness :
  wq_p request_abc = None
  ∧ serverCodec_ReadRequestBody (Value := N) (λ _ v, (v, None))
      (serverCodec_ReadRequestHeader (DecodeOk request_abc)
         NewServerCodec newRequest).1.1
      (Some 0)
    = (Some 0, Some errMissingParams).
Proof.
  split; [reflexivity|].
  exact (proj1 (serverCodec_missing_params (Value := N) (λ _ v, (v, None))
                  NewServerCodec
                  (serverCodec_ReadRequestHeader (DecodeOk request_abc)
                     NewServerCodec newRequest).1.1
                  request_abc newRequest
                  (serverCodec_ReadRequestHeader (Value := N)
                     (DecodeOk request_abc) NewServerCodec newRequest).1.2
                  None 0 None eq_refl eq_refl)).
Defined.

(** Three requests, the second without identifier, with a failed decode
    and a response in between, are numbered 1, 2, 3. *)
Lemma serverCodec_seq_increasing_witness :
  header_reads (Value := N)
    [CallReadRequestHeader (DecodeOk request_abc) newRequest;
     CallReadRequestHeader (conn_garbage 1) newRequest;
     CallReadRequestHeader (DecodeOk request_no_id) newRequest;
     CallWriteResponse None (response_seq 1) None;
     CallReadRequestHeader (DecodeOk request_abc) newRequest]
  < uint64_modulus
  ∧ assigned_seqs (Value := N) NewServerCodec
      [CallReadRequestHeader (DecodeOk request_abc) newRequest;
       CallReadRequestHeader (conn_garbage 1) newRequest;
       CallReadRequestHeader (DecodeOk request_no_id) newRequest;
       CallWriteResponse None (response_seq 1) None;
       CallReadRequestHeader (DecodeOk request_abc) newRequest]
    = [1; 2; 3].
Proof.
  split; [reflexivity|].
  exact (proj1 (serverCodec_seq_increasing (Value := N)
                  [CallReadRequestHeader (DecodeOk request_abc) newRequest;
                   CallReadRequestHeader (conn_garbage 1) newRequest;
                   CallReadRequestHeader (DecodeOk request_no_id) newRequest;
                   CallWriteResponse None (response_seq 1) None;
                   CallReadRequestHeader (DecodeOk request_abc) newRequest]
                  eq_refl)).
Defined.

(** On [conn_garbage] the second decode fails: the loop makes two decodes
    and is [Closed]. *)
Lemma ServeConn_returns_on_decode_failure_witness :
  is_DecodeOk (conn_garbage 1) = false
  ∧ ∃ c' : serverCodec (Value := N),
      ServeConn (λ _ c, c) 5 conn_garbage = (Closed, 2%nat, c').
Proof.
  split; [reflexivity|].
  destruct (ServeConn_returns_on_decode_failure (Value := N) (λ _ c, c)
              conn_garbage 1 5) as [(c' & Hc' & _) _].
  - intros i Hi. destruct i; [reflexivity | lia].
  - reflexivity.
  - lia.
  - exists c'. exact Hc'.
Defined.



(** Two handlers answer sequence numbers 1 and 2.  Goroutine 0 runs up to
    its write and goroutine 1 takes the lock: goroutine 0 is writing and
    does not hold the lock. *)
Lemma WriteResponse_lock_covers_table_only_witness :
  sh_goroutines
    (run (Value := N) frame_in_one_write [0; 0; 0; 0; 1]%nat
       (handlers pending_1_2 [(response_seq 1, None); (response_seq 2, None)]))
  !! 0%nat
  = Some {| go_r := response_seq 1;
            go_x := None;
            go_pc := pcEncode
                       [String.list_byte_of_string "d1:e0:1:ii1e1:r0:e"] |}
  ∧ sh_mutex
      (run (Value := N) frame_in_one_write [0; 0; 0; 0; 1]%nat
         (handlers pending_1_2 [(response_seq 1, None); (response_seq 2, None)]))
    ≠ Some 0%nat.
Proof.
  assert (Hg : sh_goroutines
                 (run (Value := N) frame_in_one_write [0; 0; 0; 0; 1]%nat
                    (handlers pending_1_2
                       [(response_seq 1, None); (response_seq 2, None)]))
               !! 0%nat
               = Some {| go_r := response_seq 1;
                         go_x := None;
                         go_pc := pcEncode
                           [String.list_byte_of_string "d1:e0:1:ii1e1:r0:e"] |})
    by (vm_compute; reflexivity).
  split; [exact Hg|].
  exact (proj1 (proj2 (WriteResponse_lock_covers_table_only
                         frame_in_one_write pending_1_2
                         [(response_seq 1, None); (response_seq 2, None)]
                         [0; 0; 0; 0; 1]%nat 0%nat _ Hg)) eq_refl).
Defined.

(** When the caller lets one [WriteResponse] finish before the next
    starts, the frames are whole, also with two writes per frame. *)
Lemma serialised_writes_whole :
  sh_wire
    (run (Value := N) frame_in_two_writes
       [0; 0; 0; 0; 0; 0; 0; 1; 1; 1; 1; 1; 1; 1]%nat
       (handlers pending_1_2 [(response_seq 1, None); (response_seq 2, None)]))
  = [(0%nat, String.list_byte_of_string "d1:e0:1:ii1e");
     (0%nat, String.list_byte_of_string "1:r0:e");
     (1%nat, String.list_byte_of_string "d1:e0:1:ii2e");
     (1%nat, String.list_byte_of_string "1:r0:e")]
  ∧ frames_whole [0; 0; 1; 1]%nat = true.
Proof. split; vm_compute; reflexivity. Qed.

(** C7, as stated, fails.  Two handlers answer sequence numbers 1 and 2.
    Once goroutine 0 has released the lock and goroutine 1 has taken it,
    goroutine 0 has its frame to write and does not hold the lock, and it
    writes the frame while goroutine 1 holds the lock.  With an encoder
    that makes two writes per frame, a schedule alternating the goroutines
    puts their writes on the connection interleaved. *)
Lemma WriteResponse_write_not_under_lock :
  ¬ write_under_lock
      (run (Value := N) frame_in_one_write [0; 0; 0; 0; 1]%nat
         (handlers pending_1_2 [(response_seq 1, None); (response_seq 2, None)]))
  ∧ sh_mutex
      (run (Value := N) frame_in_one_write [0; 0; 0; 0; 1; 0]%nat
         (handlers pending_1_2 [(response_seq 1, None); (response_seq 2, None)]))
    = Some 1%nat
  ∧ sh_wire
      (run (Value := N) frame_in_one_write [0; 0; 0; 0; 1; 0]%nat
         (handlers pending_1_2 [(response_seq 1, None); (response_seq 2, None)]))
    = [(0%nat, String.list_byte_of_string "d1:e0:1:ii1e1:r0:e")]
  ∧ (sh_wire
       (run (Value := N) frame_in_two_writes
          [0; 0; 0; 0; 1; 1; 1; 1; 0; 1; 0; 1]%nat
          (handlers pending_1_2
             [(response_seq 1, None); (response_seq 2, None)]))).*1
    = [0; 1; 0; 1]%nat
  ∧ frames_whole
      (sh_wire
         (run (Value := N) frame_in_two_writes
            [0; 0; 0; 0; 1; 1; 1; 1; 0; 1; 0; 1]%nat
            (handlers pending_1_2
               [(response_seq 1, None); (response_seq 2, None)]))).*1
    = false.
Proof.
  split; [|repeat split; vm_compute; reflexivity].
  intros Hclaim.
  specialize (Hclaim 0%nat
    {| go_r := response_seq 1;
       go_x := None;
       go_pc := pcEncode [String.list_byte_of_string "d1:e0:1:ii1e1:r0:e"] |}).
  assert (Hm : sh_mutex
                 (run (Value := N) frame_in_one_write [0; 0; 0; 0; 1]%nat
                    (handlers pending_1_2
                       [(response_seq 1, None); (response_seq 2, None)]))
               = Some 1%nat)
    by (vm_compute; reflexivity).
  rewrite Hm in Hclaim.
  discriminate Hclaim; vm_compute; reflexivity.
Qed.

(** * The further properties at concrete inputs *)

Lemma clientCodec_resolves_method_witness :
  existsb (client_touches (rq_Seq call_add))
    [CallWriteRequest (Value := N) None call_mul None;
     CallReadResponseHeader (DecodeOk (response_to 2)) newResponse]
  = false
  ∧ (clientCodec_ReadResponseHeader (DecodeOk (response_to 1))
       (clientCodec_calls
          (clientCodec_WriteRequest (Value := N)
             (Some (errExternal "broken pipe")) NewClientCodec call_add None).1
          [CallWriteRequest None call_mul None;
           CallReadResponseHeader (DecodeOk (response_to 2)) newResponse])
       newResponse).1.2
    = {| rs_ServiceMethod := "Arith.Add"; rs_Seq := 1; rs_Error := "" |}.
Proof.
  split; [reflexivity|].
  rewrite (clientCodec_resolves_method (Value := N) NewClientCodec
             (Some (errExternal "broken pipe")) call_add None
             [CallWriteRequest None call_mul None;
              CallReadResponseHeader (DecodeOk (response_to 2)) newResponse]
             (response_to 1) newResponse eq_refl eq_refl).
  reflexivity.
Defined.

Lemma clientCodec_resolves_once_witness :
  existsb (client_touches (response_id (response_to 1)))
    [CallWriteRequest (Value := N) None call_mul None]
  = false
  ∧ rs_ServiceMethod
      (clientCodec_ReadResponseHeader (DecodeOk (response_to 1))
         (clientCodec_calls
            (clientCodec_ReadResponseHeader (DecodeOk (response_to 1))
               (clientCodec_calls (Value := N) NewClientCodec two_requests)
               newResponse).1.1
            [CallWriteRequest None call_mul None])
         newResponse).1.2
    = "".
Proof.
  split; [reflexivity|].
  exact (clientCodec_resolves_once (Value := N)
           (clientCodec_calls NewClientCodec two_requests)
           (response_to 1) (response_to 1) newResponse newResponse
           [CallWriteRequest None call_mul None] eq_refl eq_refl).
Defined.

Lemma clientCodec_method_provenance_witness :
  rs_ServiceMethod
    (clientCodec_ReadResponseHeader (DecodeOk (response_to 2))
       (clientCodec_calls (Value := N) NewClientCodec two_requests)
       newResponse).1.2
  = "Arith.Mul"
  ∧ (2, "Arith.Mul") ∈ requests_written (Value := N) two_requests.
Proof.
  split; [reflexivity|].
  apply (clientCodec_method_provenance (Value := N) two_requests
           (response_to 2) newResponse).
  intros Hempty. vm_compute in Hempty. discriminate Hempty.
Defined.

Lemma clientCodec_body_of_last_header_witness :
  forallb is_WriteRequest (two_requests (Value := N)) = true
  ∧ clientCodec_ReadResponseBody (Value := N)
      (λ raw _, (N.of_nat (length raw), None))
      (clientCodec_calls
         (clientCodec_ReadResponseHeader
            (DecodeOk {| wr_e := Some ""; wr_i := Some 1;
                         wr_r := Some (String.list_byte_of_string "d1:Ci5ee") |})
            NewClientCodec newResponse).1.1
         two_requests)
      (Some 0)
    = Returns (Some 8, None).
Proof.
  split; [reflexivity|].
  rewrite (clientCodec_body_of_last_header (Value := N)
             (λ raw _, (N.of_nat (length raw), None)) NewClientCodec
             {| wr_e := Some ""; wr_i := Some 1;
                wr_r := Some (String.list_byte_of_string "d1:Ci5ee") |}
             newResponse two_requests (Some 0) eq_refl).
  reflexivity.
Defined.

(** The response to the second call comes before that to the first. *)
Lemma clientCodec_out_of_order_witness :
  response_id <$> [response_to 2; response_to 1]
    ≡ₚ (requests_written (Value := N) two_requests).*1
  ∧ rs_Seq
      <$> clientCodec_headers
            (clientCodec_calls (Value := N) NewClientCodec two_requests)
            [response_to 2; response_to 1]
    = [2; 1].
Proof.
  assert (Hperm : response_id <$> [response_to 2; response_to 1]
                    ≡ₚ (requests_written (Value := N) two_requests).*1)
    by apply perm_swap.
  split; [exact Hperm|].
  assert (Hnd : NoDup (requests_written (Value := N) two_requests).*1).
  { apply (bool_decide_unpack _). vm_compute. reflexivity. }
  exact (proj1 (proj2 (clientCodec_out_of_order (Value := N) NewClientCodec
                         two_requests [response_to 2; response_to 1]
                         eq_refl Hnd Hperm))).
Defined.

Lemma serverCodec_body_of_last_header_witness :
  existsb is_ReadRequestHeader
    [CallWriteResponse (Value := N) None (response_seq 1) None] = false
  ∧ serverCodec_ReadRequestBody (Value := N)
      (λ raw _, (N.of_nat (length raw), None))
      (serverCodec_calls
         (serverCodec_ReadRequestHeader (DecodeOk request_no_id)
            NewServerCodec newRequest).1.1
         [CallWriteResponse None (response_seq 1) None])
      (Some 0)
    = (Some 14, None).
Proof.
  split; [reflexivity|].
  rewrite (serverCodec_body_of_last_header (Value := N)
             (λ raw _, (N.of_nat (length raw), None)) NewServerCodec
             request_no_id newRequest
             [CallWriteResponse None (response_seq 1) None] (Some 0) eq_refl).
  reflexivity.
Defined.

(** Of the two requests with identifier one is answered and one pending. *)
Lemma serverCodec_conservation_witness :
  header_reads (three_requests (Value := N)) < uint64_modulus
  ∧ (length (sc_enc (serverCodec_calls (Value := N) NewServerCodec
                        three_requests))
     + size (sc_pending (serverCodec_calls (Value := N) NewServerCodec
                           three_requests))
     = 2)%nat.
Proof.
  split; [reflexivity|].
  exact (serverCodec_conservation (Value := N) three_requests eq_refl).
Defined.

Lemma serverCodec_id_provenance_witness :
  sc_enc (serverCodec_calls (Value := N) NewServerCodec three_requests)
  = [{| sr_Error := "";
        sr_Id := Some (String.list_byte_of_string "3:abc");
        sr_Result := None |}]
  ∧ ∃ id,
      sr_Id {| sr_Error := "";
               sr_Id := Some (String.list_byte_of_string "3:abc");
               sr_Result := @None N |} = Some id
      ∧ id ∈ ids_read (Value := N) three_requests.
Proof.
  assert (Henc : sc_enc (serverCodec_calls (Value := N) NewServerCodec
                           three_requests)
                 = [{| sr_Error := "";
                       sr_Id := Some (String.list_byte_of_string "3:abc");
                       sr_Result := None |}])
    by (vm_compute; reflexivity).
  split; [exact Henc|].
  apply (serverCodec_id_provenance (Value := N) three_requests).
  rewrite Henc. apply list_elem_of_singleton. reflexivity.
Defined.

(** The first request is answered; a second response for it fails. *)
Lemma serverCodec_answers_once_witness :
  answers 1 [CallWriteResponse (Value := N) None (response_seq 1) None] = true
  ∧ (serverCodec_WriteResponse (Value := N) None
       (serverCodec_calls
          (serverCodec_ReadRequestHeader (DecodeOk request_abc)
             NewServerCodec newRequest).1.1
          [CallWriteResponse None (response_seq 1) None])
       (response_seq 1) None).2
    = Some errInvalidSequence.
Proof.
  split; [reflexivity|].
  rewrite (serverCodec_answers_once (Value := N) NewServerCodec request_abc
             newRequest [CallWriteResponse None (response_seq 1) None]
             None (response_seq 1) None eq_refl eq_refl eq_refl).
  reflexivity.
Defined.

(** Three requests were read; a response for number 7 fails. *)
Lemma serverCodec_unassigned_seq_fails_witness :
  header_reads (three_requests (Value := N)) < rs_Seq (response_seq 7)
  ∧ (serverCodec_WriteResponse (Value := N) None
       (serverCodec_calls NewServerCodec three_requests)
       (response_seq 7) None).2
    = Some errInvalidSequence.
Proof.
  assert (Hlt : header_reads (three_requests (Value := N))
                < rs_Seq (response_seq 7)) by reflexivity.
  split; [exact Hlt|].
  rewrite (serverCodec_unassigned_seq_fails (Value := N) three_requests
             None (response_seq 7) None eq_refl (or_intror Hlt)).
  reflexivity.
Defined.

(** [Arith.Add] with sequence number 1 from a new client to a new server. *)
Lemma call_round_trip_witness :
  uint_of_one_byte (one_byte_uint (rq_Seq call_add)) = Some (rq_Seq call_add)
  ∧ (clientCodec_ReadResponseHeader (Value := N) (DecodeOk (response_to 1))
       (clientCodec_WriteRequest None NewClientCodec call_add (Some 7)).1
       newResponse).1.2
    = {| rs_ServiceMethod := "Arith.Add"; rs_Seq := 1; rs_Error := "" |}.
Proof.
  split; [reflexivity|].
  exact (proj1 (proj2 (proj2
           (call_round_trip (Value := N) one_byte_uint uint_of_one_byte
              NewClientCodec NewServerCodec None None call_add newRequest
              (Some 7) (Some 15)
              {| wq_i := Some (one_byte_uint 1);
                 wq_m := Some "Arith.Add";
                 wq_p := None |}
              "" (response_to 1) newResponse
              eq_refl (conj eq_refl eq_refl) (conj eq_refl eq_refl))))).
Defined.

(** Two callers race as in [racing_senders_mix_fields]: the frame on the
    connection carries sequence number 2, whose entry is in the table. *)
Lemma WriteRequest_entry_before_frame_witness :
  {| cq_Id := 2; cq_Method := "Arith.Add"; cq_Params := None |}
  ∈ sg_wire
      (send_run (Value := N) [0; 0; 0; 0; 0; 1; 1; 1; 1; 0; 0]%nat
         (senders NewClientCodec
            [(call_add, None, None); (call_mul, None, None)]))
  ∧ ∃ t, t ∈ [(call_add, @None N, @None error); (call_mul, None, None)]
         ∧ rq_Seq t.1.1 = 2
         ∧ sg_pending
             (send_run (Value := N) [0; 0; 0; 0; 0; 1; 1; 1; 1; 0; 0]%nat
                (senders NewClientCodec
                   [(call_add, None, None); (call_mul, None, None)]))
           !! 2
           = Some (rq_ServiceMethod t.1.1).
Proof.
  assert (Hf : {| cq_Id := 2; cq_Method := "Arith.Add"; cq_Params := None |}
               ∈ sg_wire
                   (send_run (Value := N)
                      [0; 0; 0; 0; 0; 1; 1; 1; 1; 0; 0]%nat
                      (senders NewClientCodec
                         [(call_add, None, None); (call_mul, None, None)]))).
  { rewrite racing_senders_mix_fields. apply list_elem_of_singleton.
    reflexivity. }
  split; [exact Hf|].
  assert (Hnd : NoDup ((λ t : Request * option N * option error, rq_Seq t.1.1)
                         <$> [(call_add, None, None); (call_mul, None, None)])).
  { apply (bool_decide_unpack _). vm_compute. reflexivity. }
  exact (WriteRequest_entry_before_frame (Value := N) NewClientCodec
           [(call_add, None, None); (call_mul, None, None)]
           [0; 0; 0; 0; 0; 1; 1; 1; 1; 0; 0]%nat
           {| cq_Id := 2; cq_Method := "Arith.Add"; cq_Params := None |}
           Hnd Hf).
Defined.

(** The first caller has stored its entry and not yet unlocked. *)
Lemma WriteRequest_stores_under_lock_witness :
  sg_senders
    (send_run (Value := N) [0; 0; 1]%nat
       (senders NewClientCodec
          [(call_add, None, None); (call_mul, None, None)]))
  !! 0%nat
  = Some {| sd_r := call_add; sd_params := None; sd_eo := None;
            sd_pc := sdUnlock |}
  ∧ sg_mutex
      (send_run (Value := N) [0; 0; 1]%nat
         (senders NewClientCodec
            [(call_add, None, None); (call_mul, None, None)]))
    = Some 0%nat.
Proof.
  assert (Hg : sg_senders
                 (send_run (Value := N) [0; 0; 1]%nat
                    (senders NewClientCodec
                       [(call_add, None, None); (call_mul, None, None)]))
               !! 0%nat
               = Some {| sd_r := call_add; sd_params := None; sd_eo := None;
                         sd_pc := sdUnlock |})
    by (vm_compute; reflexivity).
  split; [exact Hg|].
  exact (proj1 (proj1 (WriteRequest_stores_under_lock (Value := N)
                         NewClientCodec
                         [(call_add, None, None); (call_mul, None, None)]
                         [0; 0; 1]%nat 0%nat _ Hg)) eq_refl).
Defined.
